(** * github-dependents-scraper: a shallow embedding of [src/index.ts]

    The crawler of [src/index.ts] is embedded function by function.  The
    browser and the file system are the only sources of effects:

    - the file [dependentsFile] is a value of type [File] that is passed
      through every function that reads or writes it;
    - the browser tab is the rendered [Page] the tab currently shows, and
      the remote site is a partial map from URLs to rendered pages;
    - a thrown [Error] is the left injection of [result];
    - [console.log] and [console.error] are recorded where a statement
      needs them (the row loop of [parseDependents]).

    JavaScript strings are modelled by [string]; a character stands for the
    code unit of the same number, so the text is restricted to code units
    below 256.  A number produced by [parseInt] is [NaN] or a natural
    number, exact as long as the JavaScript number is (below 2^53). *)

From Stdlib Require Import NArith ZArith Ascii String.
From stdpp Require Import base tactics option list sets strings.

Local Open Scope string_scope.
Local Open Scope list_scope.
Local Open Scope nat_scope.

(** ** Thrown errors *)

(** Every [throw] of the source raises a plain [Error]; the constructors
    name the [throw] sites (and the exceptions of the runtime that the
    source relies on). *)
Inductive Error : Type :=
  | StoreUnreadable        (* readFileSync / JSON.parse of getDependentsFromFile throws *)
  | WriteFailed            (* writeFileSync throws *)
  | UnableToParse          (* line 194: "Unable to parse dependents" *)
  | NoPreviousButton       (* line 115: 'Unable to find "Previous" button ...' *)
  | NoNextButton           (* line 147: 'Unable to find "Next" button ...' *)
  | FileAppearsEmpty       (* line 244: "... appears to be empty" *)
  | GotoFailed             (* page.goto rejects *)
  | BadOwnerAndRepo        (* line 277 *)
  | BadDependentsFile      (* line 283 *)
  | BadResumeCrawl.        (* line 292 *)

Inductive result (A : Type) : Type :=
  | Ok (a : A)
  | Throw (e : Error).
Arguments Ok {A} a.
Arguments Throw {A} e.

Global Instance result_ret : MRet result := λ A, Ok.
Global Instance result_bind : MBind result := λ A B k m,
  match m with
  | Ok a => k a
  | Throw e => Throw e
  end.

(** ** Record model (lines 6-12) *)

(** A JavaScript number as [parseInt] returns it. *)
Inductive number : Type :=
  | NaN
  | Num (n : N).

Global Instance number_eq_dec : EqDecision number.
Proof. solve_decision. Defined.

(** Strict equality as [isDeepStrictEqual] applies it to numbers
    ([Object.is]: [NaN] is equal to itself). *)
Definition number_eqb (a b : number) : bool :=
  match a, b with
  | NaN, NaN => true
  | Num x, Num y => N.eqb x y
  | _, _ => false
  end.

Record Dependent : Type := mkDependent {
  owner : string;
  repo : string;
  stars : number;
  forks : number;
  previousGithubDependentsPageUrl : option string;
}.

Global Instance Dependent_eq_dec : EqDecision Dependent.
Proof. solve_decision. Defined.

Definition option_string_eqb (a b : option string) : bool :=
  match a, b with
  | Some x, Some y => String.eqb x y
  | None, None => true
  | _, _ => false
  end.

(** [util.isDeepStrictEqual] on two [Dependent] objects: the five own
    properties are compared one by one with strict equality. *)
Definition isDeepStrictEqual (a b : Dependent) : bool :=
  String.eqb (owner a) (owner b)
  && String.eqb (repo a) (repo b)
  && number_eqb (stars a) (stars b)
  && number_eqb (forks a) (forks b)
  && option_string_eqb (previousGithubDependentsPageUrl a)
       (previousGithubDependentsPageUrl b).

(** ** The persisted store (lines 14-36) *)

(** Content of [dependentsFile]: [None] when the file is missing or its
    content is not JSON text, so that [readFileSync] or [JSON.parse]
    throws; [Some l] when it holds the array [l].  A file that holds JSON
    of another shape, which the cast at line 17 does not check, is outside
    the model.  [JSON.stringify] followed by [JSON.parse] is the identity
    on the records modelled here. *)
Definition File : Type := option (list Dependent).

Definition getDependentsFromFile (dependentsFile : File) : result (list Dependent) :=
  match dependentsFile with
  | Some l => Ok l
  | None => Throw StoreUnreadable
  end.

(** Returns the new content of the file. *)
Definition saveDependentsToFile (dependentsFile : File)
    (dependents : list Dependent) (overwriteDependentsFile : bool) : result File :=
  if negb overwriteDependentsFile then
    existingDependents ← getDependentsFromFile dependentsFile;
    Ok (Some (existingDependents ++ dependents))
  else Ok (Some dependents).

(** ** Deduplication (lines 161-179) *)

(** [Array.prototype.findIndex]: the first index whose element satisfies
    [p], or [-1]. *)
Fixpoint findIndex_from {A} (p : A → bool) (l : list A) (i : Z) : Z :=
  match l with
  | [] => (-1)%Z
  | x :: l' => if p x then i else findIndex_from p l' (i + 1)%Z
  end.

Definition findIndex {A} (p : A → bool) (l : list A) : Z := findIndex_from p l 0%Z.

(** The condition of the [if] at lines 168-172. *)
Definition isDuplicate (existingDependents : list Dependent)
    (parsedDependent : Dependent) : bool :=
  negb (findIndex (λ dependent, isDeepStrictEqual dependent parsedDependent)
          existingDependents =? -1)%Z.

(** The [for ... of parsedDependents.entries()] loop.  [_parsedDependents]
    is an alias of [parsedDependents], so [splice] shrinks the very array
    the iterator walks: [arr] is that one array, [index] the iterator's
    position.  The iterator ends as soon as [index] is not below the
    current length; [splice(index, 1)] is [delete index].  Each turn
    advances [index], so [length parsedDependents] turns are enough
    ([dedup_loop_fuel] below). *)
Fixpoint dedup_loop (fuel : nat) (existingDependents arr : list Dependent)
    (index : nat) : list Dependent :=
  match fuel with
  | O => arr
  | S fuel' =>
    match arr !! index with
    | None => arr
    | Some parsedDependent =>
      if isDuplicate existingDependents parsedDependent
      then dedup_loop fuel' existingDependents (delete index arr) (S index)
      else dedup_loop fuel' existingDependents arr (S index)
    end
  end.

Definition removeDuplicateDependents (dependentsFile : File)
    (parsedDependents : list Dependent) : result (list Dependent) :=
  existingDependents ← getDependentsFromFile dependentsFile;
  Ok (dedup_loop (length parsedDependents) existingDependents parsedDependents 0).

(** The store's append-with-dedup: [removeDuplicateDependents] followed by
    [saveDependentsToFile] in append mode, as the page loop chains them. *)
Definition appendDeduped (dependentsFile : File) (batch : list Dependent) : result File :=
  deduped ← removeDuplicateDependents dependentsFile batch;
  saveDependentsToFile dependentsFile deduped false.

(** What the loop computes, by recursion on the part of the array that the
    iterator has not reached: after a removal the element that slides into
    the freed slot is never examined. *)
Fixpoint splice_skip (existingDependents l : list Dependent) : list Dependent :=
  match l with
  | [] => []
  | x :: l' =>
    if isDuplicate existingDependents x then
      match l' with
      | [] => []
      | y :: l'' => y :: splice_skip existingDependents l''
      end
    else x :: splice_skip existingDependents l'
  end.

(** ** Regular expressions

    The three regular-expression literals of the source (lines 78, 275 and
    282) are run by a backtracking matcher that follows the order in which
    the JavaScript engine tries the alternatives: quantifiers are greedy
    and give characters back one at a time, and [exec] tries the start
    positions from left to right. *)

Module Regex.

Inductive regex : Type :=
  | Cls (p : ascii → bool)        (* one character of a class *)
  | Cat (a b : regex)             (* a followed by b *)
  | Opt (a : regex)               (* a? *)
  | Plus (a : regex)              (* a+ *)
  | Grp (i : nat) (a : regex).    (* capturing group number i *)

Definition code (c : ascii) : N := N_of_ascii c.

(** [\s] on code units below 256: TAB, LF, VT, FF, CR, space, NBSP. *)
Definition is_space (c : ascii) : bool :=
  ((9 <=? code c) && (code c <=? 13) || (code c =? 32) || (code c =? 160))%N.
Definition is_digit (c : ascii) : bool :=
  ((48 <=? code c) && (code c <=? 57))%N.
(** [\w] is [[A-Za-z0-9_]]. *)
Definition is_word (c : ascii) : bool :=
  ((65 <=? code c) && (code c <=? 90) || (97 <=? code c) && (code c <=? 122)
   || is_digit c || (code c =? 95))%N.
(** [.] without the [s] flag: anything but a line terminator. *)
Definition is_dot (c : ascii) : bool :=
  negb ((code c =? 10) || (code c =? 13))%N.

Definition s := Cls is_space.
Definition S' := Cls (λ c, negb (is_space c)).
Definition d := Cls is_digit.
Definition w := Cls is_word.
Definition dot := Cls is_dot.
Definition lit (x : ascii) := Cls (Ascii.eqb x).

Fixpoint seq (l : list regex) (last : regex) : regex :=
  match l with
  | [] => last
  | a :: l' => Cat a (seq l' last)
  end.

Fixpoint lits (x : string) (last : regex) : regex :=
  match x with
  | EmptyString => last
  | String c x' => Cat (lit c) (lits x' last)
  end.

(** Captures recorded so far, most recent first. *)
Definition captures : Type := list (nat * string).

Fixpoint capture (i : nat) (c : captures) : option string :=
  match c with
  | [] => None
  | (j, x) :: c' => if Nat.eqb i j then Some x else capture i c'
  end.

(** The text consumed between the suffix [from] and its suffix [to]. *)
Definition consumed (from to : string) : string :=
  String.substring 0 (String.length from - String.length to) from.

(** The turns of [a+], [body] being the matcher of [a]: one turn, then
    as many more as succeed, at most [n] in all; a turn that is denied
    counts as a failed turn. *)
Fixpoint turns {R : Type}
    (body : string → captures → (string → captures → option R) → option R)
    (k : string → captures → option R)
    (n : nat) (input : string) (c : captures) : option R :=
  match n with
  | O => None
  | Datatypes.S n' =>
    body input c (λ rest c',
      match turns body k n' rest c' with
      | Some res => Some res
      | None => k rest c'
      end)
  end.

(** [run r fuel input c k] matches [r] at the head of [input] and hands
    the rest of the input to the continuation [k]; when [k] fails the
    next alternative of [r] is tried.  [fuel] bounds the number of turns
    of a [Plus]: every turn of the expressions of the source consumes a
    character, so a bound above the length of the input never denies a
    turn that could succeed ([run_fuel] below). *)
Fixpoint run {R : Type} (r : regex) (fuel : nat) (input : string) (c : captures)
    (k : string → captures → option R) {struct r} : option R :=
  match r with
  | Cls p =>
    match input with
    | String x rest => if p x then k rest c else None
    | EmptyString => None
    end
  | Cat a b => run a fuel input c (λ rest c', run b fuel rest c' k)
  | Opt a =>
    match run a fuel input c k with
    | Some res => Some res
    | None => k input c
    end
  | Plus a => turns (run a fuel) k fuel input c
  | Grp i a =>
    run a fuel input c (λ rest c', k rest ((i, consumed input rest) :: c'))
  end.

Definition match_here (r : regex) (input : string) : option captures :=
  run r (Datatypes.S (String.length input)) input []
    (λ rest c, Some ((0, consumed input rest) :: c)).

(** [RegExp.prototype.exec] of a regular expression without flags: the
    match at the leftmost start position, [None] for [null]. *)
Fixpoint exec (r : regex) (input : string) : option captures :=
  match match_here r input with
  | Some c => Some c
  | None =>
    match input with
    | EmptyString => None
    | String _ rest => exec r rest
    end
  end.

(** [x.replace(/\s\//g, "")] *)
Fixpoint remove_space_slash (x : string) : string :=
  match x with
  | String a ((String b rest) as tl) =>
    if is_space a && Ascii.eqb b "/" then remove_space_slash rest
    else String a (remove_space_slash tl)
  | _ => x
  end.

(** [x.replace(/c/g, "")] for a class [c] of single characters. *)
Fixpoint remove_all (p : ascii → bool) (x : string) : string :=
  match x with
  | EmptyString => EmptyString
  | String a rest => if p a then remove_all p rest else String a (remove_all p rest)
  end.

(** The groups that every match of [r] goes through. *)
Fixpoint groups (r : regex) : list nat :=
  match r with
  | Cls _ => []
  | Cat a b => groups a ++ groups b
  | Opt _ => []
  | Plus a => groups a
  | Grp i a => i :: groups a
  end.

(** [body] only succeeds through its continuation, and then the groups
    of [gs] are recorded on top of those recorded before. *)
Definition records {R : Type} (gs : list nat)
    (body : string → captures → (string → captures → option R) → option R) : Prop :=
  ∀ input c k res, body input c k = Some res →
    ∃ rest c', k rest c' = Some res
      ∧ ∀ i, is_Some (capture i c) ∨ i ∈ gs → is_Some (capture i c').

(** [r] consumes at least one character whenever it matches. *)
Fixpoint consuming (r : regex) : bool :=
  match r with
  | Cls _ => true
  | Cat a b => consuming a || consuming b
  | Opt _ => false
  | Plus a => consuming a
  | Grp _ a => consuming a
  end.

(** Every [a+] inside [r] has a consuming [a]. *)
Fixpoint productive (r : regex) : bool :=
  match r with
  | Cls _ => true
  | Cat a b => productive a && productive b
  | Opt a => productive a
  | Plus a => consuming a && productive a
  | Grp _ a => productive a
  end.

End Regex.

(** ** The rendered page *)

(** A child element of [#dependents > div.Box]. *)
Record Child : Type := mkChild {
  child_is_div : bool;
  textContent : string;
}.

Inductive Tag : Type := TagA | TagButton | TagOther.

(** A child element of [#dependents > div.paginate-container > div], with
    the two attributes the source reads. *)
Record Element : Type := mkElement {
  tagName : Tag;
  disabled : option string;
  href : option string;
}.

(** What the tab shows: the children of the entries container ([None] when
    [#dependents > div.Box] is not on the page) and the children of the
    pagination container, both in document order.  The page does not
    change while it is shown, so a [waitForSelector] times out exactly
    when nothing on the page matches. *)
Record Page : Type := mkPage {
  box : option (list Child);
  pagination : list Element;
}.

(** The tab that [browser.newPage()] opens. *)
Definition blank : Page := {| box := None; pagination := [] |}.

(** ** Page Extractor (lines 38-98) *)

(** [parseInt(x)] for an [x] that starts neither with white space, a sign
    nor [0x]: the value of the longest prefix of decimal digits, [NaN]
    when that prefix is empty.  The source gets the double nearest to
    that value: the two are the same up to 2^53. *)
Fixpoint parseInt_from (x : string) (acc : number) : number :=
  match x with
  | String c rest =>
    if Regex.is_digit c then
      parseInt_from rest
        (Num (10 * match acc with NaN => 0 | Num n => n end + (Regex.code c - 48)))
    else acc
  | EmptyString => acc
  end.

Definition parseInt (x : string) : number := parseInt_from x NaN.

(** [/(\S+\s\/)(\s+\S+)\s+((?:\d+,?)+)(\s+)((?:\d+,?)+)/] *)
Definition reg : Regex.regex :=
  let number_group := Regex.Plus (Regex.Cat (Regex.Plus Regex.d) (Regex.Opt (Regex.lit ","))) in
  Regex.seq
    [ Regex.Grp 1 (Regex.seq [Regex.Plus Regex.S'; Regex.s] (Regex.lit "/"));
      Regex.Grp 2 (Regex.Cat (Regex.Plus Regex.s) (Regex.Plus Regex.S'));
      Regex.Plus Regex.s;
      Regex.Grp 3 number_group;
      Regex.Grp 4 (Regex.Plus Regex.s) ]
    (Regex.Grp 5 number_group).

(** Lines 78-86 for one row text: [None] when the statement throws a
    [TypeError] ([res] is [null]). *)
Definition parseRow (text : string) : option Dependent :=
  res ← Regex.exec reg text;
  res1 ← Regex.capture 1 res;
  res2 ← Regex.capture 2 res;
  res3 ← Regex.capture 3 res;
  res5 ← Regex.capture 5 res;
  Some {| owner := Regex.remove_space_slash res1;
          repo := Regex.remove_all Regex.is_space res2;
          stars := parseInt (Regex.remove_all (Ascii.eqb ",") res3);
          forks := parseInt (Regex.remove_all (Ascii.eqb ",") res5);
          previousGithubDependentsPageUrl := None |}.

Inductive RowError : Type :=
  | TimeoutError     (* waitForSelector of the row *)
  | TypeError.       (* res is null *)

Inductive ConsoleEntry : Type :=
  | console_error (error : RowError)
  | console_log (text : string).

(** Lines 74-86 once the row element is found: the record pushed, or the
    error caught together with the value of [text] at that moment.  The
    selector asks for a [div]. *)
Definition tryChild (child : Child) : Dependent + RowError * string :=
  if child_is_div child then
    match parseRow (textContent child) with
    | Some dependent => inl dependent
    | None => inr (TypeError, textContent child)
    end
  else inr (TimeoutError, "").

(** The body of the [try] at lines 70-86 for the 1-based child [index]. *)
Definition tryRow (children : list Child) (index : nat) : Dependent + RowError * string :=
  match children !! (index - 1) with
  | Some child => tryChild child
  | None => inr (TimeoutError, "")
  end.

(** The [for] loop at lines 67-91. *)
Fixpoint parse_loop (fuel index numberOfDependents : nat) (children : list Child)
    (dependents : list Dependent) (console : list ConsoleEntry)
    : list Dependent * list ConsoleEntry :=
  match fuel with
  | O => (dependents, console)
  | S fuel' =>
    if (index <=? numberOfDependents)%nat then
      match tryRow children index with
      | inl dependent =>
        parse_loop fuel' (S index) numberOfDependents children
          (dependents ++ [dependent]) console
      | inr (error, text) =>
        parse_loop fuel' (S index) numberOfDependents children
          dependents (console ++ [console_error error; console_log text])
      end
    else (dependents, console)
  end.

(** [None] is the [undefined] that the function returns after its outer
    [catch]; the second component is what the row loop printed. *)
Definition parseDependents (page : Page) : option (list Dependent) * list ConsoleEntry :=
  match box page with
  | None => (None, [])
  | Some children =>
    let numberOfDependents := length children in
    let '(dependents, console) :=
      parse_loop numberOfDependents 2 numberOfDependents children [] [] in
    (Some dependents, console)
  end.

(** ** Pagination Navigator (lines 100-159) *)

Inductive Selector : Type :=
  | sel_a_nth_child (n : nat)     (* div > a:nth-child(n) *)
  | sel_button                    (* div > button *)
  | sel_a.                        (* div > a *)

Definition is_tag (t : Tag) (el : Element) : bool :=
  match t, tagName el with
  | TagA, TagA | TagButton, TagButton | TagOther, TagOther => true
  | _, _ => false
  end.

(** The first element in document order that matches, [None] when the
    wait times out. *)
Definition waitForSelector (page : Page) (selector : Selector) : option Element :=
  match selector with
  | sel_a_nth_child n =>
    match pagination page !! (n - 1) with
    | Some el => if is_tag TagA el then Some el else None
    | None => None
    end
  | sel_button => List.find (is_tag TagButton) (pagination page)
  | sel_a => List.find (is_tag TagA) (pagination page)
  end.

(** The function passed to [page.evaluate] at lines 121-126 and 153-158.
    [getAttribute] gives a string or [null], never [undefined], so the
    [throw]s at lines 226 and 255 cannot be reached. *)
Definition evaluate (el : Element) : option string :=
  match disabled el with
  | Some v => if String.eqb v "disabled" then None else href el
  | None => href el
  end.

Definition getPreviousDependentsPageUrl (page : Page) : result (option string) :=
  match waitForSelector page (sel_a_nth_child 1) with
  | Some element => Ok (evaluate element)
  | None =>
    match waitForSelector page sel_button with
    | Some element => Ok (evaluate element)
    | None => Throw NoPreviousButton
    end
  end.

Definition getNextDependentsPageUrl (page : Page) : result (option string) :=
  match waitForSelector page (sel_a_nth_child 2) with
  | Some element => Ok (evaluate element)
  | None =>
    match getPreviousDependentsPageUrl page with
    | Ok (Some _) => Ok None
    | Ok None =>
      match waitForSelector page sel_a with
      | Some element => Ok (evaluate element)
      | None => Throw NoNextButton
      end
    | Throw _ => Throw NoNextButton
    end
  end.

(** ** Crawl Controller (lines 181-261) *)

(** The remote site: the page that [page.goto(url)] renders, [None] when
    the navigation is rejected. *)
Definition Web : Type := string → option Page.

(** What a run does to the outside world, in order. *)
Inductive Event : Type :=
  | Goto (url : string)
  | Persist (overwriteDependentsFile : bool) (before : File)
      (dependents : list Dependent) (after : File).

(** How a call ends. *)
Inductive Outcome : Type :=
  | Done                    (* the loop reached its [break] (line 224) *)
  | Exited                  (* [exit(0)] at line 252 *)
  | Aborted (e : Error)     (* caught by the [catch] at line 230 *)
  | Uncaught (e : Error)    (* thrown out of the function *)
  | Running.                (* the loop has not ended within the given number of turns *)

(** The variables the page loop reads and writes: the file, the page the
    tab shows, and the local [_overwriteDependentsFile]. *)
Record Crawl : Type := mkCrawl {
  dependentsFile : File;
  page : Page;
  _overwriteDependentsFile : bool;
}.

Definition stamp (previousPageUrl : string) (dependent : Dependent) : Dependent :=
  {| owner := owner dependent;
     repo := repo dependent;
     stars := stars dependent;
     forks := forks dependent;
     previousGithubDependentsPageUrl := Some previousPageUrl |}.

(** One turn of the [while (true)] loop, lines 192-228: the state after
    the turn, the events of the turn, and [None] to take another turn or
    the way the loop ends. *)
Definition crawl_turn (web : Web) (c : Crawl) : Crawl * list Event * option Outcome :=
  match (parseDependents (page c)).1 with
  | None => (c, [], Some (Aborted UnableToParse))
  | Some parsedDependents =>
    match removeDuplicateDependents (dependentsFile c) parsedDependents with
    | Throw e => (c, [], Some (Aborted e))
    | Ok parsedDependents =>
      match getPreviousDependentsPageUrl (page c) with
      | Throw e => (c, [], Some (Aborted e))
      | Ok previousPageUrl =>
        let parsedDependents :=
          match previousPageUrl with
          | Some url => stamp url <$> parsedDependents
          | None => parsedDependents
          end in
        match saveDependentsToFile (dependentsFile c) parsedDependents
                (_overwriteDependentsFile c) with
        | Throw e => (c, [], Some (Aborted e))
        | Ok saved =>
          let persist :=
            Persist (_overwriteDependentsFile c) (dependentsFile c)
              parsedDependents saved in
          let c := {| dependentsFile := saved; page := page c;
                      _overwriteDependentsFile := false |} in
          match getNextDependentsPageUrl (page c) with
          | Throw e => (c, [persist], Some (Aborted e))
          | Ok None => (c, [persist], Some Done)
          | Ok (Some nextPageUrl) =>
            match web nextPageUrl with
            | None => (c, [persist; Goto nextPageUrl], Some (Aborted GotoFailed))
            | Some next =>
              ({| dependentsFile := saved; page := next;
                  _overwriteDependentsFile := false |},
               [persist; Goto nextPageUrl], None)
            end
          end
        end
      end
    end
  end.

(** The result of a call: how it ended, the content of the file and the
    page of the tab when it ended, and the events in order. *)
Record Run : Type := mkRun {
  outcome : Outcome;
  disk_after : File;
  tab_after : Page;
  events : list Event;
}.

Definition after (evs : list Event) (r : Run) : Run :=
  {| outcome := outcome r; disk_after := disk_after r; tab_after := tab_after r;
     events := evs ++ events r |}.

Definition ended (o : Outcome) (c : Crawl) (evs : list Event) : Run :=
  {| outcome := o; disk_after := dependentsFile c; tab_after := page c;
     events := evs |}.

(** The loop; the listing may link its pages in a cycle, so the number of
    turns is bounded by [fuel]. *)
Fixpoint crawl_loop (fuel : nat) (web : Web) (c : Crawl) : Run :=
  match fuel with
  | O => ended Running c []
  | S fuel' =>
    match crawl_turn web c with
    | (c', evs, Some o) => ended o c' evs
    | (c', evs, None) => after evs (crawl_loop fuel' web c')
    end
  end.

Definition startCrawl (fuel : nat) (web : Web) (dependentsFile : File) (page : Page)
    (overwriteDependentsFile : bool) : Run :=
  crawl_loop fuel web
    {| dependentsFile := dependentsFile; page := page;
       _overwriteDependentsFile := overwriteDependentsFile |}.

Definition uncaught (e : Error) (dependentsFile : File) (page : Page)
    (evs : list Event) : Run :=
  {| outcome := Uncaught e; disk_after := dependentsFile; tab_after := page;
     events := evs |}.

Definition resumeCrawlFromFile (fuel : nat) (web : Web) (dependentsFile : File)
    (page : Page) : Run :=
  match getDependentsFromFile dependentsFile with
  | Throw e => uncaught e dependentsFile page []
  | Ok dependentsFileJson =>
    match last dependentsFileJson with
    | None => uncaught FileAppearsEmpty dependentsFile page []
    | Some lastDependent =>
      match previousGithubDependentsPageUrl lastDependent with
      | Some url =>
        match web url with
        | None => uncaught GotoFailed dependentsFile page [Goto url]
        | Some page =>
          match getNextDependentsPageUrl page with
          | Throw e => uncaught e dependentsFile page [Goto url]
          | Ok None =>
            {| outcome := Exited; disk_after := dependentsFile; tab_after := page;
               events := [Goto url] |}
          | Ok (Some nextPageUrl) =>
            match web nextPageUrl with
            | None =>
              uncaught GotoFailed dependentsFile page [Goto url; Goto nextPageUrl]
            | Some page =>
              after [Goto url; Goto nextPageUrl]
                (startCrawl fuel web dependentsFile page false)
            end
          end
        end
      | None => startCrawl fuel web dependentsFile page false
      end
    end
  end.

(** ** Invocation (lines 269-317) *)

(** [/(\S+\/\S+)/] *)
Definition owner_and_repo_re : Regex.regex :=
  Regex.Grp 1 (Regex.seq [Regex.Plus Regex.S'; Regex.lit "/"] (Regex.Plus Regex.S')).

(** [/\w+.json/] *)
Definition json_file_re : Regex.regex :=
  Regex.seq [Regex.Plus Regex.w; Regex.dot] (Regex.lits "jso" (Regex.lit "n")).

(** [Boolean(x)] for [x] a string or [undefined]. *)
Definition Boolean (x : option string) : bool :=
  match x with
  | None => false
  | Some EmptyString => false
  | Some (String _ _) => true
  end.

(** [argv] is [process.argv.slice(2)]; a missing argument is [undefined]. *)
Definition getArgs (argv : list string) : result (string * string * bool) :=
  let resumeCrawl := argv !! 2 in
  match argv !! 0 with
  | None => Throw BadOwnerAndRepo
  | Some githubOwnerAndRepo =>
    match Regex.exec owner_and_repo_re githubOwnerAndRepo with
    | None => Throw BadOwnerAndRepo
    | Some _ =>
      match argv !! 1 with
      | None => Throw BadDependentsFile
      | Some dependentsFile =>
        match Regex.exec json_file_re dependentsFile with
        | None => Throw BadDependentsFile
        | Some _ =>
          if bool_decide (resumeCrawl ≠ Some "false"
                          ∧ resumeCrawl ≠ Some "true"
                          ∧ resumeCrawl ≠ None)
          then Throw BadResumeCrawl
          else Ok (githubOwnerAndRepo, dependentsFile, Boolean resumeCrawl)
        end
      end
    end
  end.

(** [disk] is the content of the file that the second argument names. *)
Definition start (fuel : nat) (argv : list string) (web : Web) (disk : File) : Run :=
  match getArgs argv with
  | Throw e => uncaught e disk blank []
  | Ok (githubOwnerAndRepo, _, resumeCrawl) =>
    let page := blank in
    if resumeCrawl then resumeCrawlFromFile fuel web disk page
    else
      let url := "https://github.com/" +:+ githubOwnerAndRepo +:+ "/network/dependents" in
      match web url with
      | None => uncaught GotoFailed disk page [Goto url]
      | Some page =>
        match saveDependentsToFile disk [] true with
        | Throw e => uncaught e disk page [Goto url]
        | Ok saved =>
          after [Goto url; Persist true disk [] saved]
            (startCrawl fuel web saved page true)
        end
      end
  end.

(** ** Failing writes (line 35)

    [saveDependentsToFile] above takes [writeFileSync] to return.  It can
    also throw, and then the [catch] at line 230 ends the page loop.
    [writeFileSync] opens the file with the flag [w], which empties it,
    and then writes the whole text; so a write that fails leaves the file
    either as it was, when the file could not be opened, or cut short,
    when the failure comes after the file is opened.  A text that is cut
    short is not JSON text.  The definitions below are those of the page
    loop with the way each write ends as an extra argument. *)

Inductive WriteFault : Type :=
  | Written         (* writeFileSync returns *)
  | NotOpened       (* it throws and the file is as it was *)
  | Truncated.      (* it throws after the file is opened: the text is cut short *)

(** The content of the file afterwards, and the error thrown if any. *)
Definition writeFileSync (fault : WriteFault) (dependentsFile : File)
    (data : list Dependent) : File * option Error :=
  match fault with
  | Written => (Some data, None)
  | NotOpened => (dependentsFile, Some WriteFailed)
  | Truncated => (None, Some WriteFailed)
  end.

Definition saveDependentsToFile_with (fault : WriteFault) (dependentsFile : File)
    (dependents : list Dependent) (overwriteDependentsFile : bool)
    : File * option Error :=
  if negb overwriteDependentsFile then
    match getDependentsFromFile dependentsFile with
    | Ok existingDependents =>
      writeFileSync fault dependentsFile (existingDependents ++ dependents)
    | Throw e => (dependentsFile, Some e)
    end
  else writeFileSync fault dependentsFile dependents.

(** One turn of the loop when its write ends as [fault] says.  A save
    that throws leaves the assignment at line 219 undone. *)
Definition crawl_turn_with (fault : WriteFault) (web : Web) (c : Crawl)
    : Crawl * list Event * option Outcome :=
  match (parseDependents (page c)).1 with
  | None => (c, [], Some (Aborted UnableToParse))
  | Some parsedDependents =>
    match removeDuplicateDependents (dependentsFile c) parsedDependents with
    | Throw e => (c, [], Some (Aborted e))
    | Ok parsedDependents =>
      match getPreviousDependentsPageUrl (page c) with
      | Throw e => (c, [], Some (Aborted e))
      | Ok previousPageUrl =>
        let parsedDependents :=
          match previousPageUrl with
          | Some url => stamp url <$> parsedDependents
          | None => parsedDependents
          end in
        match saveDependentsToFile_with fault (dependentsFile c) parsedDependents
                (_overwriteDependentsFile c) with
        | (remains, Some e) =>
          ({| dependentsFile := remains; page := page c;
              _overwriteDependentsFile := _overwriteDependentsFile c |},
           [], Some (Aborted e))
        | (saved, None) =>
          let persist :=
            Persist (_overwriteDependentsFile c) (dependentsFile c)
              parsedDependents saved in
          let c := {| dependentsFile := saved; page := page c;
                      _overwriteDependentsFile := false |} in
          match getNextDependentsPageUrl (page c) with
          | Throw e => (c, [persist], Some (Aborted e))
          | Ok None => (c, [persist], Some Done)
          | Ok (Some nextPageUrl) =>
            match web nextPageUrl with
            | None => (c, [persist; Goto nextPageUrl], Some (Aborted GotoFailed))
            | Some next =>
              ({| dependentsFile := saved; page := next;
                  _overwriteDependentsFile := false |},
               [persist; Goto nextPageUrl], None)
            end
          end
        end
      end
    end
  end.

(** The loop; [faults] says how the write of each turn ends, in order,
    and every write beyond the list returns. *)
Fixpoint crawl_loop_with (fuel : nat) (faults : list WriteFault) (web : Web)
    (c : Crawl) : Run :=
  match fuel with
  | O => ended Running c []
  | S fuel' =>
    match crawl_turn_with (default Written (head faults)) web c with
    | (c', evs, Some o) => ended o c' evs
    | (c', evs, None) => after evs (crawl_loop_with fuel' (tail faults) web c')
    end
  end.

Definition startCrawl_with (fuel : nat) (faults : list WriteFault) (web : Web)
    (dependentsFile : File) (page : Page) (overwriteDependentsFile : bool) : Run :=
  crawl_loop_with fuel faults web
    {| dependentsFile := dependentsFile; page := page;
       _overwriteDependentsFile := overwriteDependentsFile |}.

(** * Vocabulary of the statements *)

(** What a turn of the row loop adds to [dependents] and to the console. *)
Definition pushed (r : Dependent + RowError * string) : option Dependent :=
  match r with
  | inl dependent => Some dependent
  | inr _ => None
  end.

Definition printed (r : Dependent + RowError * string) : list ConsoleEntry :=
  match r with
  | inl _ => []
  | inr (error, text) => [console_error error; console_log text]
  end.

(** The value of [_overwriteDependentsFile] at each persist of a run. *)
Definition persist_flags (evs : list Event) : list bool :=
  omap (λ ev, match ev with
              | Persist overwriteDependentsFile _ _ _ => Some overwriteDependentsFile
              | Goto _ => None
              end) evs.

(** The content of the file after the events [evs], starting from [disk]. *)
Definition last_persisted (disk : File) (evs : list Event) : File :=
  foldl (λ disk ev, match ev with
                    | Persist _ _ _ saved => saved
                    | Goto _ => disk
                    end) disk evs.

(** Whatever a persist of the run wrote is still in the file at the end of
    the run, in place. *)
Definition keeps_persisted_pages (run : Run) : Prop :=
  ∀ overwrite before batch saved,
    Persist overwrite before batch saved ∈ events run →
    ∃ pre post, saved = Some (pre ++ batch)
                ∧ disk_after run = Some (pre ++ batch ++ post).

(** The deduplicating append as the specification words it: the store
    followed by the batch without every record of the batch that is equal,
    on all fields, to a record of the store. *)
Definition appendDeduped_spec (store batch : list Dependent) : list Dependent :=
  store ++ filter (λ record, record ∉ store) batch.

Definition alice : Dependent :=
  {| owner := "alice"; repo := "widget"; stars := Num 10; forks := Num 2;
     previousGithubDependentsPageUrl := None |}.

Definition bob : Dependent :=
  {| owner := "bob"; repo := "gadget"; stars := Num 3; forks := Num 1;
     previousGithubDependentsPageUrl := None |}.

(** [x.endsWith(suffix)] *)
Definition endsWith (suffix x : string) : bool :=
  (String.length suffix <=? String.length x)
  && String.eqb
       (String.substring (String.length x - String.length suffix)
          (String.length suffix) x)
       suffix.

(** ** The language of a regular expression *)

Module RegexLang.
Import Regex.

(** [matches r x]: the text [x] is matched by [r] from its first to its
    last character. *)
Inductive matches : regex → string → Prop :=
  | matches_cls p ch : p ch = true → matches (Cls p) (String ch "")
  | matches_cat a b x y : matches a x → matches b y → matches (Cat a b) (x +:+ y)
  | matches_opt_skip a : matches (Opt a) ""
  | matches_opt_take a x : matches a x → matches (Opt a) x
  | matches_plus_last a x : matches a x → matches (Plus a) x
  | matches_plus_more a x y :
      matches a x → matches (Plus a) y → matches (Plus a) (x +:+ y)
  | matches_grp i a x : matches a x → matches (Grp i a) x.

(** Some part of [input] is matched by [r]. *)
Definition contains_match (r : regex) (input : string) : Prop :=
  ∃ pre x post, input = pre +:+ x +:+ post ∧ matches r x.

(** [Q i] holds of every text that a group numbered [i] of [r] can match. *)
Fixpoint groups_sound (Q : nat → string → Prop) (r : regex) : Prop :=
  match r with
  | Cls _ => True
  | Cat a b => groups_sound Q a ∧ groups_sound Q b
  | Opt a => groups_sound Q a
  | Plus a => groups_sound Q a
  | Grp i a => (∀ x, matches a x → Q i x) ∧ groups_sound Q a
  end.

Definition captures_sound (Q : nat → string → Prop) (c : captures) : Prop :=
  ∀ i x, (i, x) ∈ c → Q i x.

(** Every character of [x] is in the class [p]. *)
Fixpoint all_chars (p : ascii → bool) (x : string) : bool :=
  match x with
  | EmptyString => true
  | String ch x' => p ch && all_chars p x'
  end.

End RegexLang.

Import RegexLang.

Definition not_space (ch : ascii) : bool := negb (Regex.is_space ch).

(** A non-empty text whose characters are all in the class [p]. *)
Definition word_of (p : ascii → bool) (x : string) : Prop :=
  x ≠ "" ∧ all_chars p x = true.

(** What the groups 1, 2, 3 and 5 of the expression of line 78 match. *)
Definition row_groups (i : nat) (x : string) : Prop :=
  match i with
  | 1 => ∃ o ws, x = o +:+ String ws "/" ∧ word_of not_space o
                 ∧ Regex.is_space ws = true
  | 2 => ∃ ws r, x = ws +:+ r ∧ word_of Regex.is_space ws ∧ word_of not_space r
  | 3 | 5 => ∃ ch x', x = String ch x' ∧ Regex.is_digit ch = true
  | _ => True
  end.

(** [g] holds a slash with white-space-free text on both sides. *)
Definition owner_repo_shape (g : string) : Prop :=
  ∃ pre o r post, g = pre +:+ o +:+ "/" +:+ r +:+ post
                  ∧ word_of not_space o ∧ word_of not_space r.

(** [f] holds word characters, then one more character that is not a
    line terminator, then [json]. *)
Definition json_shape (f : string) : Prop :=
  ∃ pre w ch post, f = pre +:+ w +:+ String ch "json" +:+ post
                   ∧ word_of Regex.is_word w ∧ Regex.is_dot ch = true.

(** [rest] is empty or starts with a character outside the class [p]. *)
Definition starts_outside (p : ascii → bool) (rest : string) : Prop :=
  match rest with
  | EmptyString => True
  | String ch _ => p ch = false
  end.

(** Matching [A] against [x +:+ rest] takes [x] at the first attempt: the
    continuation is tried on [rest] with the captures [add c], and when it
    succeeds there no other way of matching [A] is tried. *)
Definition greedy (A : Regex.regex) (x rest : string)
    (add : Regex.captures → Regex.captures) : Prop :=
  ∀ (R : Type) fuel c (k : string → Regex.captures → option R) res,
    String.length (x +:+ rest) < fuel →
    k rest (add c) = Some res →
    Regex.run A fuel (x +:+ rest) c k = Some res.

(** [(?:\d+,?)+] *)
Definition number_group : Regex.regex :=
  Regex.Plus (Regex.Cat (Regex.Plus Regex.d) (Regex.Opt (Regex.lit ","))).

Definition digit_or_comma (ch : ascii) : bool :=
  Regex.is_digit ch || Ascii.eqb "," ch.

(** The value of a text of decimal digits. *)
Fixpoint decimal_from (x : string) (acc : N) : N :=
  match x with
  | EmptyString => acc
  | String ch x' => decimal_from x' (10 * acc + (Regex.code ch - 48))
  end.

Definition decimal (x : string) : N := decimal_from x 0.

(** A number as the listing prints it: groups of digits, to be joined by
    commas. *)
Definition number_text (gs : list string) : Prop :=
  gs ≠ [] ∧ Forall (word_of Regex.is_digit) gs.

(** The elements at the odd positions, counting from 0. *)
Fixpoint odds {A} (l : list A) : list A :=
  match l with
  | _ :: y :: l' => y :: odds l'
  | _ => []
  end.

(** The records persisted by the events, in order. *)
Definition batches (evs : list Event) : list Dependent :=
  evs ≫= λ ev, match ev with
               | Persist _ _ dependents _ => dependents
               | Goto _ => []
               end.

(** No navigation comes first or follows another navigation: each one
    directly follows a persist. *)
Fixpoint persist_before_goto (evs : list Event) : bool :=
  match evs with
  | [] => true
  | Goto _ :: _ => false
  | Persist _ _ _ _ :: Goto _ :: evs' => persist_before_goto evs'
  | Persist _ _ _ _ :: evs' => persist_before_goto evs'
  end.

(** ** A listing of two pages *)

Definition url1 : string := "https://github.com/ownerA/repoB/network/dependents".
Definition url2 : string :=
  "https://github.com/ownerA/repoB/network/dependents?dependents_after=MjQ".

Definition header : Child :=
  {| child_is_div := true; textContent := "3 Repositories 0 Packages" |}.

Definition row (text : string) : Child :=
  {| child_is_div := true; textContent := text |}.

Definition disabled_button : Element :=
  {| tagName := TagButton; disabled := Some "disabled"; href := None |}.

Definition link (url : string) : Element :=
  {| tagName := TagA; disabled := None; href := Some url |}.

Definition page1 : Page :=
  {| box := Some [header; row "alice / widget 10 2"; row "no stars here";
                  row "bob / gadget 3 1"];
     pagination := [disabled_button; link url2] |}.

Definition page2 : Page :=
  {| box := Some [header; row "carol / thing 1,234 5"];
     pagination := [link url1; disabled_button] |}.

Definition carol : Dependent :=
  {| owner := "carol"; repo := "thing"; stars := Num 1234; forks := Num 5;
     previousGithubDependentsPageUrl := Some url1 |}.

(** The whole listing. *)
Definition site : Web := λ url,
  if String.eqb url url1 then Some page1
  else if String.eqb url url2 then Some page2
  else None.

(** The listing when the second page is answered by a page without the
    entries container. *)
Definition site_blocked : Web := λ url,
  if String.eqb url url1 then Some page1
  else if String.eqb url url2 then Some blank
  else None.

(** A listing of one page: both controls are disabled buttons. *)
Definition page_single : Page :=
  {| box := Some [header; row "alice / widget 10 2"];
     pagination := [disabled_button; disabled_button] |}.

(** A page without pagination controls. *)
Definition page_bare : Page :=
  {| box := Some [header; row "alice / widget 10 2"]; pagination := [] |}.

(** A fresh crawl of [site] whose second write fails after the file is
    opened. *)
Definition run_with_truncating_write : Run :=
  startCrawl_with 5 [Written; Truncated] site (Some []) page1 true.

(** The same crawl when the second write fails to open the file. *)
Definition run_with_refused_write : Run :=
  startCrawl_with 5 [Written; NotOpened] site (Some []) page1 true.

(** * Properties *)

(** ** Structural equality and duplicates *)

Lemma option_string_eqb_eq a b : option_string_eqb a b = true ↔ a = b.
Proof.
  destruct a as [x|], b as [y|]; simpl; try (split; congruence).
  rewrite String.eqb_eq. split; congruence.
Qed.

Lemma number_eqb_eq a b : number_eqb a b = true ↔ a = b.
Proof.
  destruct a as [|x], b as [|y]; simpl; try (split; congruence).
  rewrite N.eqb_eq. split; congruence.
Qed.

Lemma isDeepStrictEqual_eq a b : isDeepStrictEqual a b = true ↔ a = b.
Proof.
  unfold isDeepStrictEqual. rewrite !andb_true_iff, !String.eqb_eq,
    !number_eqb_eq, option_string_eqb_eq.
  destruct a, b; simpl. split.
  - intros [[[[-> ->] ->] ->] ->]. reflexivity.
  - intros [= -> -> -> -> ->]. tauto.
Qed.

Lemma findIndex_from_found {A} (p : A → bool) l i :
  (0 ≤ i)%Z → (findIndex_from p l i ≠ -1)%Z ↔ ∃ x, x ∈ l ∧ p x = true.
Proof.
  revert i. induction l as [|x l IH]; intros i Hi; simpl.
  - split; [congruence|]. intros (x & Hx & _). inversion Hx.
  - destruct (p x) eqn:Hp.
    + split; [|lia]. intros _. exists x. split; [left|done].
    + rewrite IH by lia. split; intros (y & Hy & Hpy).
      * exists y. split; [by right|done].
      * exists y. split; [|done]. inversion Hy; subst; [congruence|done].
Qed.

Lemma isDuplicate_elem_of existingDependents d :
  isDuplicate existingDependents d = true ↔ d ∈ existingDependents.
Proof.
  unfold isDuplicate, findIndex.
  rewrite negb_true_iff, Z.eqb_neq, findIndex_from_found by lia. split.
  - intros (x & Hx & Heq). apply isDeepStrictEqual_eq in Heq. by subst.
  - intros Hd. exists d. split; [done|]. by apply isDeepStrictEqual_eq.
Qed.

(** ** The dedup loop in closed form *)

Lemma delete_take_drop {A} (l : list A) i x :
  l !! i = Some x → delete i l = take i l ++ drop (S i) l.
Proof.
  revert i. induction l as [|y l IH]; intros [|i] H; simpl in *; try done.
  f_equal. by apply IH.
Qed.

Lemma dedup_loop_closed fuel existingDependents arr index :
  length arr - index ≤ fuel →
  dedup_loop fuel existingDependents arr index
  = take index arr ++ splice_skip existingDependents (drop index arr).
Proof.
  revert arr index. induction fuel as [|fuel IH]; intros arr index Hfuel; simpl.
  - rewrite drop_ge by lia. rewrite take_ge by lia. by rewrite app_nil_r.
  - destruct (arr !! index) as [d|] eqn:Hd.
    + pose proof (lookup_lt_Some _ _ _ Hd) as Hlt.
      rewrite (drop_S _ _ _ Hd). simpl.
      destruct (isDuplicate existingDependents d).
      * rewrite IH by (rewrite length_delete by eauto; lia).
        rewrite (delete_take_drop _ _ _ Hd).
        rewrite take_app_ge by (rewrite length_take; lia).
        rewrite drop_app_ge by (rewrite length_take; lia).
        rewrite length_take.
        replace (S index - index `min` length arr) with 1 by lia.
        destruct (drop (S index) arr) as [|y rest]; simpl.
        -- by rewrite !app_nil_r.
        -- rewrite drop_0. by rewrite <- app_assoc.
      * rewrite IH by lia.
        rewrite (take_S_r _ _ _ Hd), <- app_assoc. done.
    + apply lookup_ge_None in Hd.
      rewrite drop_ge by lia. rewrite take_ge by lia. by rewrite app_nil_r.
Qed.

(** The fuel given by [removeDuplicateDependents] is enough: more turns
    change nothing. *)
Lemma dedup_loop_fuel fuel existingDependents parsedDependents :
  length parsedDependents ≤ fuel →
  dedup_loop fuel existingDependents parsedDependents 0
  = dedup_loop (length parsedDependents) existingDependents parsedDependents 0.
Proof. intros H. rewrite !dedup_loop_closed by lia. done. Qed.

Lemma removeDuplicateDependents_closed existingDependents parsedDependents :
  removeDuplicateDependents (Some existingDependents) parsedDependents
  = Ok (splice_skip existingDependents parsedDependents).
Proof.
  unfold removeDuplicateDependents. simpl.
  rewrite dedup_loop_closed by lia. done.
Qed.

Lemma appendDeduped_closed existingDependents batch :
  appendDeduped (Some existingDependents) batch
  = Ok (Some (existingDependents ++ splice_skip existingDependents batch)).
Proof. unfold appendDeduped. rewrite removeDuplicateDependents_closed. done. Qed.

(** A batch that shares no record with the store is kept whole. *)
Lemma splice_skip_fresh existingDependents batch :
  Forall (λ d, d ∉ existingDependents) batch →
  splice_skip existingDependents batch = batch.
Proof.
  induction 1 as [|d batch Hd _ IH]; simpl; [done|].
  destruct (isDuplicate existingDependents d) eqn:Hdup.
  - apply isDuplicate_elem_of in Hdup. done.
  - by rewrite IH.
Qed.

(** On such a batch the code does what the specification says. *)
Lemma appendDeduped_fresh store batch :
  Forall (λ d, d ∉ store) batch →
  appendDeduped (Some store) batch = Ok (Some (appendDeduped_spec store batch)).
Proof.
  intros H. rewrite appendDeduped_closed, splice_skip_fresh by done.
  unfold appendDeduped_spec. do 3 f_equal.
  induction H as [|d batch Hd _ IH]; [done|].
  rewrite filter_cons_True by done. by f_equal.
Qed.

(** C1 (the code departs from the claim).  With the two records [alice]
    and [bob] persisted, appending the batch [alice; bob] persists [bob] a
    second time: the loop removes [alice], [bob] slides into the slot just
    examined and is never compared.  The claim asks for the store followed
    by the batch without every record the store already holds, here the
    store unchanged. *)
Theorem C1_appendDeduped_keeps_record_after_removed_one :
  appendDeduped (Some [alice; bob]) [alice; bob] = Ok (Some [alice; bob; bob])
  ∧ appendDeduped_spec [alice; bob] [alice; bob] = [alice; bob].
Proof. split; vm_compute; reflexivity. Qed.

(** C2 (the code departs from the claim).  Appending the batch
    [alice; bob] to the empty store and then appending the same batch
    again is not a no-op: the second append adds [bob] once more,
    although both records are already persisted with the same fields. *)
Theorem C2_second_append_adds_a_record :
  appendDeduped (Some []) [alice; bob] = Ok (Some [alice; bob])
  ∧ appendDeduped (Some [alice; bob]) [alice; bob] ≠ Ok (Some [alice; bob]).
Proof. split; [vm_compute; reflexivity | vm_compute; discriminate]. Qed.

(** ** The matcher records every group it goes through *)

Module RegexFacts.
Import Regex.

Lemma turns_records {R : Type} gs
    (body : string → captures → (string → captures → option R) → option R) k n :
  records gs body →
  ∀ input c res, turns body k n input c = Some res →
    ∃ rest c', k rest c' = Some res
      ∧ ∀ i, is_Some (capture i c) ∨ i ∈ gs → is_Some (capture i c').
Proof.
  intros Hbody. induction n as [|n IH]; intros input c res H; simpl in H.
  - discriminate.
  - apply Hbody in H as (rest & c' & H & Hc').
    destruct (turns body k n rest c') as [res'|] eqn:Hturns.
    + injection H as ->.
      apply IH in Hturns as (rest2 & c2 & Hk & Hc2).
      exists rest2, c2. split; [done|]. intros i Hi. apply Hc2.
      destruct Hi as [Hi|Hi]; [left; apply Hc'; by left | by right].
    + exists rest, c'. by split.
Qed.

Lemma run_records {R : Type} r fuel : records (R := R) (groups r) (run r fuel).
Proof.
  induction r as [p|a IHa b IHb|a IHa|a IHa|j a IHa];
    intros input c k res H; simpl in H.
  - destruct input as [|x rest]; [done|]. destruct (p x); [|done].
    exists rest, c. split; [done|]. intros i [Hi|Hi]; [done|]. inversion Hi.
  - apply IHa in H as (rest1 & c1 & H & Hc1).
    apply IHb in H as (rest2 & c2 & H & Hc2).
    exists rest2, c2. split; [done|]. intros i Hi. apply Hc2.
    simpl in Hi. rewrite elem_of_app in Hi.
    destruct Hi as [Hi|[Hi|Hi]]; [left; apply Hc1; by left
                                 | left; apply Hc1; by right | by right].
  - destruct (run a fuel input c k) as [res'|] eqn:Ha.
    + injection H as ->. apply IHa in Ha as (rest & c' & Hk & Hc').
      exists rest, c'. split; [done|]. intros i [Hi|Hi]; [|inversion Hi].
      apply Hc'. by left.
    + exists input, c. split; [done|]. intros i [Hi|Hi]; [done|inversion Hi].
  - by apply (turns_records (groups a) (run a fuel) k fuel IHa input c res).
  - apply IHa in H as (rest & c' & H & Hc').
    eexists _, _. split; [exact H|]. intros i Hi. simpl.
    destruct (Nat.eqb i j) eqn:Hij; [done|]. apply Hc'.
    apply Nat.eqb_neq in Hij. simpl in Hi. rewrite elem_of_cons in Hi.
    destruct Hi as [Hi|[Hi|Hi]]; [by left|done|by right].
Qed.

Lemma exec_records r input res :
  exec r input = Some res → ∀ i, i ∈ groups r → is_Some (capture i res).
Proof.
  induction input as [|x rest IH]; simpl; intros H i Hi.
  - destruct (match_here r "") as [c|] eqn:Hm; [|done]. injection H as ->.
    apply run_records in Hm as (rest' & c' & [= <-] & Hc').
    simpl. destruct (Nat.eqb i 0); [done|]. apply Hc'. by right.
  - destruct (match_here r (String x rest)) as [c|] eqn:Hm; [|by apply IH].
    injection H as ->.
    apply run_records in Hm as (rest' & c' & [= <-] & Hc').
    simpl. destruct (Nat.eqb i 0); [done|]. apply Hc'. by right.
Qed.
(** The continuation is only ever given a rest that is no longer than
    the input, and a shorter one when the expression is consuming. *)
Lemma run_ext {R : Type} r fuel input c (k k' : string → captures → option R) :
  (∀ rest c', String.length rest + (if consuming r then 1 else 0)
              ≤ String.length input → k rest c' = k' rest c') →
  run r fuel input c k = run r fuel input c k'.
Proof.
  revert input c k k'.
  induction r as [p|a IHa b IHb|a IHa|a IHa|j a IHa]; intros input c k k' Hk;
    cbn [run consuming] in *.
  - destruct input as [|x rest]; [done|]. destruct (p x); [|done].
    apply Hk. simpl. lia.
  - apply IHa. intros rest c' Hrest. apply IHb. intros rest2 c2 Hrest2.
    apply Hk. destruct (consuming a), (consuming b); simpl in *; lia.
  - rewrite (IHa input c k k').
    + rewrite (Hk input c) by lia. done.
    + intros rest c' Hrest. apply Hk. destruct (consuming a); lia.
  - assert (Hturns : ∀ n input' c0,
      String.length input' ≤ String.length input →
      turns (run a fuel) k n input' c0 = turns (run a fuel) k' n input' c0);
      [|by apply Hturns].
    induction n as [|n IHn]; intros input' c0 Hlen; [done|]. cbn [turns].
    apply IHa. intros rest c' Hrest.
    rewrite IHn by (destruct (consuming a); lia).
    rewrite (Hk rest c') by lia. done.
  - apply IHa. intros rest c' Hrest. by apply Hk.
Qed.

(** The bound on the turns of [a+] never cuts a match short: any bound
    above the length of the input gives the same result. *)
Lemma run_fuel {R : Type} r :
  productive r = true →
  ∀ fuel1 fuel2 input c (k : string → captures → option R),
    String.length input < fuel1 → String.length input < fuel2 →
    run r fuel1 input c k = run r fuel2 input c k.
Proof.
  induction r as [p|a IHa b IHb|a IHa|a IHa|j a IHa]; cbn [productive];
    intros Hr fuel1 fuel2 input c k H1 H2; cbn [run].
  - done.
  - apply andb_true_iff in Hr as [Ha Hb].
    rewrite (IHa Ha fuel1 fuel2) by done.
    apply run_ext. intros rest c' Hrest. apply IHb; [done|lia|lia].
  - by rewrite (IHa Hr fuel1 fuel2).
  - apply andb_true_iff in Hr as [Hc Ha].
    assert (Hturns : ∀ m input' c0 n1 n2,
      String.length input' ≤ m → String.length input' < n1 →
      String.length input' < n2 → String.length input' < fuel1 →
      String.length input' < fuel2 →
      turns (run a fuel1) k n1 input' c0 = turns (run a fuel2) k n2 input' c0);
      [|by apply (Hturns (String.length input))].
    induction m as [|m IHm]; intros input' c0 n1 n2 Hm Hn1 Hn2 Hf1 Hf2;
      (destruct n1 as [|n1]; [lia|]); (destruct n2 as [|n2]; [lia|]);
      cbn [turns]; rewrite (IHa Ha fuel1 fuel2) by done;
      apply run_ext; rewrite Hc; intros rest c' Hrest; [lia|].
    rewrite (IHm rest c' n1 n2) by lia. done.
  - by apply IHa.
Qed.

End RegexFacts.

(** The three expressions of the source are productive, so the bound
    that [match_here] passes is as good as any larger one. *)
Lemma match_here_fuel r input fuel :
  Regex.productive r = true → String.length input < fuel →
  Regex.run r fuel input [] (λ rest c, Some ((0, Regex.consumed input rest) :: c))
  = Regex.match_here r input.
Proof. intros Hr Hfuel. apply RegexFacts.run_fuel; [done|done|lia]. Qed.

Lemma source_expressions_productive :
  Regex.productive reg = true
  ∧ Regex.productive owner_and_repo_re = true
  ∧ Regex.productive json_file_re = true.
Proof. repeat split; reflexivity. Qed.

(** A row text yields a record exactly when the regular expression of
    line 78 matches it. *)
Lemma parseRow_matches text :
  is_Some (parseRow text) ↔ is_Some (Regex.exec reg text).
Proof.
  unfold parseRow. destruct (Regex.exec reg text) as [res|] eqn:Hexec; simpl.
  - split; [done|]. intros _.
    pose proof (RegexFacts.exec_records _ _ _ Hexec) as Hg.
    change (Regex.groups reg) with [1; 2; 3; 4; 5] in Hg.
    destruct (Hg 1) as [x1 ->]; [rewrite !elem_of_cons; tauto|].
    destruct (Hg 2) as [x2 ->]; [rewrite !elem_of_cons; tauto|].
    destruct (Hg 3) as [x3 ->]; [rewrite !elem_of_cons; tauto|].
    destruct (Hg 5) as [x5 ->]; [rewrite !elem_of_cons; tauto|].
    simpl. done.
  - split; intros [? ?]; done.
Qed.

(** ** Page Extractor *)

Lemma parse_loop_closed fuel index n children dependents console :
  S n - index ≤ fuel →
  parse_loop fuel index n children dependents console
  = (dependents ++ omap (λ i, pushed (tryRow children i)) (seq index (S n - index)),
     console ++ (seq index (S n - index) ≫= λ i, printed (tryRow children i))).
Proof.
  revert index dependents console.
  induction fuel as [|fuel IH]; intros index dependents console Hfuel; simpl.
  - replace (S n - index) with 0 by lia. simpl. by rewrite !app_nil_r.
  - destruct (Nat.leb_spec index n) as [Hle|Hgt].
    + replace (S n - index) with (S (S n - S index)) by lia.
      cbn [seq omap list_omap mbind list_bind].
      destruct (tryRow children index) as [d|[e t]]; rewrite IH by lia; simpl.
      * by rewrite <- app_assoc.
      * by rewrite <- app_assoc.
    + replace (S n - index) with 0 by lia. simpl. by rewrite !app_nil_r.
Qed.

Lemma tryRow_children children :
  tryRow children <$> seq 2 (length children - 1) = tryChild <$> drop 1 children.
Proof.
  apply list_eq. intros i. rewrite !list_lookup_fmap, lookup_drop.
  destruct (decide (i < length children - 1)) as [Hi|Hi].
  - rewrite lookup_seq_lt by done. simpl. unfold tryRow.
    replace (S (S i) - 1) with (S i) by lia.
    destruct (lookup_lt_is_Some_2 children (S i)) as [child Hchild]; [lia|].
    by rewrite Hchild.
  - rewrite lookup_seq_ge by lia.
    rewrite (lookup_ge_None_2 children (1 + i)) by lia. done.
Qed.

Lemma omap_fmap_compose {A B C} (f : B → option C) (g : A → B) (l : list A) :
  omap f (g <$> l) = omap (λ x, f (g x)) l.
Proof.
  induction l as [|x l IH]; [done|].
  cbn [fmap list_fmap omap list_omap]. by rewrite IH.
Qed.

Lemma parseDependents_closed children pagination :
  parseDependents {| box := Some children; pagination := pagination |}
  = (Some (omap pushed (tryRow children <$> seq 2 (length children - 1))),
     (tryRow children <$> seq 2 (length children - 1)) ≫= printed).
Proof.
  unfold parseDependents. cbn [box].
  rewrite parse_loop_closed by lia.
  replace (S (length children) - 2) with (length children - 1) by lia.
  rewrite omap_fmap_compose, list_fmap_bind. done.
Qed.

(** C4.  On a page whose entries container has the element children
    [children], the row loop runs for the 1-based indices 2 to
    [length children] in order and for no other.  The records returned are
    those of the children after the first, in page order, one for every
    row (a [div] child) whose text the regular expression of line 78
    matches and none for any other child; each child that yields no record
    adds one error report and its text to the console and the loop goes
    on.  A child that yields no record can be removed from, or added to,
    the page without changing the records returned. *)
Theorem C4_parseDependents_rows children pagination :
  let page := {| box := Some children; pagination := pagination |} in
  let indices := seq 2 (length children - 1) in
  parseDependents page
  = (Some (omap (λ index, pushed (tryRow children index)) indices),
     indices ≫= λ index, printed (tryRow children index))
  ∧ parseDependents page
    = (Some (omap (λ child, pushed (tryChild child)) (drop 1 children)),
       drop 1 children ≫= λ child, printed (tryChild child))
  ∧ (∀ child, is_Some (pushed (tryChild child))
       ↔ child_is_div child = true ∧ is_Some (Regex.exec reg (textContent child)))
  ∧ (∀ child, pushed (tryChild child) = None
       → ∃ error, printed (tryChild child)
                  = [console_error error;
                     console_log (if child_is_div child then textContent child else "")])
  ∧ (∀ header before malformed after, pushed (tryChild malformed) = None →
       (parseDependents {| box := Some (header :: before ++ malformed :: after);
                           pagination := pagination |}).1
       = (parseDependents {| box := Some (header :: before ++ after);
                             pagination := pagination |}).1).
Proof.
  intros page indices. unfold page, indices.
  assert (Hclosed : ∀ cs,
    parseDependents {| box := Some cs; pagination := pagination |}
    = (Some (omap (λ child, pushed (tryChild child)) (drop 1 cs)),
       drop 1 cs ≫= λ child, printed (tryChild child))).
  { intros cs. rewrite parseDependents_closed, tryRow_children.
    rewrite omap_fmap_compose, list_fmap_bind. done. }
  split; [|split; [|split; [|split]]].
  - rewrite parseDependents_closed.
    rewrite omap_fmap_compose, list_fmap_bind. done.
  - apply Hclosed.
  - intros child. rewrite <- parseRow_matches. unfold tryChild.
    destruct (child_is_div child).
    + destruct (parseRow (textContent child)); simpl.
      * split; [intros _; split; [done|by eexists] | by eexists].
      * split; [intros [? ?]; done | intros [_ [? ?]]; done].
    + simpl. split; [intros [? ?]; done | intros [? _]; done].
  - intros child. unfold tryChild. destruct (child_is_div child).
    + destruct (parseRow (textContent child)); simpl; [done|].
      intros _. by eexists.
    + simpl. intros _. by eexists.
  - intros header before malformed after Hmal. rewrite !Hclosed. simpl.
    rewrite !drop_0, !omap_app. simpl. rewrite Hmal. done.
Qed.

(** ** Pagination Navigator *)

Lemma getPreviousDependentsPageUrl_throws page e :
  getPreviousDependentsPageUrl page = Throw e
  ↔ e = NoPreviousButton
    ∧ waitForSelector page (sel_a_nth_child 1) = None
    ∧ waitForSelector page sel_button = None.
Proof.
  unfold getPreviousDependentsPageUrl.
  destruct (waitForSelector page (sel_a_nth_child 1));
    [|destruct (waitForSelector page sel_button)].
  - split; [done|]. by intros (_ & ? & _).
  - split; [done|]. by intros (_ & _ & ?).
  - split; [by intros [= <-]|]. by intros (-> & _).
Qed.

Lemma getNextDependentsPageUrl_throws page e :
  getNextDependentsPageUrl page = Throw e
  ↔ e = NoNextButton
    ∧ waitForSelector page (sel_a_nth_child 2) = None
    ∧ ((waitForSelector page (sel_a_nth_child 1) = None
        ∧ waitForSelector page sel_button = None)
       ∨ (getPreviousDependentsPageUrl page = Ok None
          ∧ waitForSelector page sel_a = None)).
Proof.
  unfold getNextDependentsPageUrl.
  destruct (waitForSelector page (sel_a_nth_child 2)).
  { split; [done|]. by intros (_ & ? & _). }
  destruct (getPreviousDependentsPageUrl page) as [[url|]|e'] eqn:Hprev.
  - split; [done|]. intros (_ & _ & [[H1 H2]|[? _]]); [|done].
    assert (getPreviousDependentsPageUrl page = Throw NoPreviousButton) as Habs
      by by apply getPreviousDependentsPageUrl_throws.
    congruence.
  - destruct (waitForSelector page sel_a).
    + split; [done|]. intros (_ & _ & [[H1 H2]|[_ ?]]); [|done].
      assert (getPreviousDependentsPageUrl page = Throw NoPreviousButton) as Habs
        by by apply getPreviousDependentsPageUrl_throws.
      congruence.
    + split; [intros [= <-]|by intros (-> & _)].
      split; [done|]. split; [done|]. by right.
  - apply getPreviousDependentsPageUrl_throws in Hprev as (-> & H1 & H2).
    split; [intros [= <-]|by intros (-> & _)].
    split; [done|]. split; [done|]. by left.
Qed.

(** The ways a turn of the page loop can go. *)
Lemma crawl_turn_inv web c c' evs o :
  crawl_turn web c = (c', evs, o) →
  (c' = c ∧ evs = [] ∧ ∃ e, o = Some (Aborted e))
  ∨ ∃ existing batch saved,
      dependentsFile c = Some existing
      ∧ saved = (if _overwriteDependentsFile c then batch else existing ++ batch)
      ∧ dependentsFile c' = Some saved
      ∧ _overwriteDependentsFile c' = false
      ∧ let persist :=
          Persist (_overwriteDependentsFile c) (Some existing) batch (Some saved) in
        (evs = [persist] ∧ page c' = page c
         ∧ (o = Some Done ∨ ∃ e, o = Some (Aborted e)))
        ∨ ∃ url, evs = [persist; Goto url]
            ∧ ((o = Some (Aborted GotoFailed) ∧ page c' = page c)
               ∨ (o = None ∧ web url = Some (page c'))).
Proof.
  unfold crawl_turn. destruct c as [file pg ow]. cbn [dependentsFile page
    _overwriteDependentsFile]. intros H.
  destruct (parseDependents pg).1 as [parsed|];
    [|injection H as <- <- <-; left; eauto].
  destruct file as [existing|]; simpl in H;
    [|injection H as <- <- <-; left; eauto].
  destruct (getPreviousDependentsPageUrl pg) as [prev|e];
    [|injection H as <- <- <-; left; eauto].
  right. exists existing.
  set (batch := match prev with
                | Some url => stamp url <$> _
                | None => _
                end) in *.
  exists batch. unfold saveDependentsToFile in H.
  destruct ow; simpl in H.
  - exists batch.
    destruct (getNextDependentsPageUrl pg) as [[url|]|e].
    + destruct (web url) as [next|] eqn:Hweb; injection H as <- <- <-;
        (do 4 (split; [done|])); right; exists url; split; [done| |done|]; eauto.
    + injection H as <- <- <-. do 4 (split; [done|]). left. eauto.
    + injection H as <- <- <-. do 4 (split; [done|]). left. eauto.
  - exists (existing ++ batch).
    destruct (getNextDependentsPageUrl pg) as [[url|]|e].
    + destruct (web url) as [next|] eqn:Hweb; injection H as <- <- <-;
        (do 4 (split; [done|])); right; exists url; split; [done| |done|]; eauto.
    + injection H as <- <- <-. do 4 (split; [done|]). left. eauto.
    + injection H as <- <- <-. do 4 (split; [done|]). left. eauto.
Qed.

(** ** Runs of the page loop *)

Lemma crawl_loop_S fuel web c :
  crawl_loop (S fuel) web c
  = match crawl_turn web c with
    | (c', evs, Some o) => ended o c' evs
    | (c', evs, None) => after evs (crawl_loop fuel web c')
    end.
Proof. reflexivity. Qed.

(** Once the flag is [false], every persist of the loop finds it [false]. *)
Lemma crawl_loop_flags_false fuel web c :
  _overwriteDependentsFile c = false →
  ∃ k, persist_flags (events (crawl_loop fuel web c)) = replicate k false.
Proof.
  revert c. induction fuel as [|fuel IH]; intros c Hc.
  - by exists 0.
  - rewrite crawl_loop_S.
    destruct (crawl_turn web c) as [[c' evs] o] eqn:Hturn.
    apply crawl_turn_inv in Hturn
      as [(-> & -> & e & ->)|(ex & batch & saved & _ & _ & _ & Hc' & Hturn)].
    { by exists 0. }
    rewrite Hc in Hturn. simpl in Hturn.
    destruct Hturn as [(-> & _ & [->|[e ->]])|(url & -> & [[-> _]|[-> _]])];
      try by exists 1.
    destruct (IH c' Hc') as [k Hk]. exists (S k).
    unfold after, persist_flags in *. cbn [events].
    rewrite omap_app, Hk. done.
Qed.

(** The flags of a run of the loop: the initial value at the first
    persist, [false] at every later one. *)
Lemma crawl_loop_flags fuel web c :
  persist_flags (events (crawl_loop fuel web c)) = []
  ∨ ∃ k, persist_flags (events (crawl_loop fuel web c))
         = _overwriteDependentsFile c :: replicate k false.
Proof.
  destruct fuel as [|fuel]; [by left|].
  rewrite crawl_loop_S.
  destruct (crawl_turn web c) as [[c' evs] o] eqn:Hturn.
  apply crawl_turn_inv in Hturn
    as [(-> & -> & e & ->)|(ex & batch & saved & _ & _ & _ & Hc' & Hturn)].
  { by left. }
  right. simpl in Hturn.
  destruct Hturn as [(-> & _ & [->|[e ->]])|(url & -> & [[-> _]|[-> _]])];
    try by exists 0.
  destruct (crawl_loop_flags_false fuel web c' Hc') as [k Hk]. exists k.
  unfold after, persist_flags in *. cbn [events].
  rewrite omap_app, Hk. done.
Qed.

(** A persist that finds the flag [false] appends. *)
Lemma crawl_loop_appends fuel web c before batch saved :
  Persist false before batch saved ∈ events (crawl_loop fuel web c) →
  ∃ existing, before = Some existing ∧ saved = Some (existing ++ batch).
Proof.
  revert c. induction fuel as [|fuel IH]; intros c; [by inversion 1|].
  rewrite crawl_loop_S.
  destruct (crawl_turn web c) as [[c' evs] o] eqn:Hturn.
  apply crawl_turn_inv in Hturn
    as [(-> & -> & e & ->)|(ex & b & sv & _ & Hsv & _ & _ & Hturn)].
  { by inversion 1. }
  simpl in Hturn.
  destruct Hturn as [(-> & _ & [->|[e ->]])|(url & -> & [[-> _]|[-> _]])];
    cbn [ended after events]; intros H; set_unfold in H; destruct_or! H;
    simplify_eq; eauto;
    match goal with Hf : false = _ |- _ => rewrite <- Hf; eauto end.
Qed.

(** Once the flag is [false], no persist of the loop overwrites. *)
Lemma crawl_loop_no_overwrite fuel web c before batch saved :
  _overwriteDependentsFile c = false →
  Persist true before batch saved ∉ events (crawl_loop fuel web c).
Proof.
  intros Hc Hin. destruct (crawl_loop_flags_false fuel web c Hc) as [k Hk].
  assert (Hflag : true ∈ persist_flags (events (crawl_loop fuel web c))).
  { apply list_elem_of_omap. eexists. split; [exact Hin|done]. }
  rewrite Hk in Hflag. apply elem_of_replicate in Hflag as [? _]. done.
Qed.

(** On a file that holds the empty sequence, the persist that overwrites
    writes what an append would. *)
Lemma crawl_loop_overwrite_empty fuel web c before batch saved :
  dependentsFile c = Some [] →
  Persist true before batch saved ∈ events (crawl_loop fuel web c) →
  before = Some [] ∧ saved = Some ([] ++ batch).
Proof.
  intros Hempty. destruct fuel as [|fuel]; [by inversion 1|].
  rewrite crawl_loop_S.
  destruct (crawl_turn web c) as [[c' evs] o] eqn:Hturn.
  apply crawl_turn_inv in Hturn
    as [(-> & -> & e & ->)|(ex & b & sv & Hex & Hsv & _ & Hc' & Hturn)].
  { by inversion 1. }
  rewrite Hempty in Hex. injection Hex as <-.
  assert (sv = b) as -> by (by destruct (_overwriteDependentsFile c)).
  simpl in Hturn.
  destruct Hturn as [(-> & _ & [->|[e ->]])|(url & -> & [[-> _]|[-> _]])];
    cbn [ended after events]; intros H; set_unfold in H; destruct_or! H;
    simplify_eq; try done.
  by apply crawl_loop_no_overwrite in H.
Qed.

(** The file at the end of a run is the one the last persist wrote. *)
Lemma crawl_loop_disk_after fuel web c :
  disk_after (crawl_loop fuel web c)
  = last_persisted (dependentsFile c) (events (crawl_loop fuel web c)).
Proof.
  revert c. induction fuel as [|fuel IH]; intros c; [done|].
  rewrite crawl_loop_S.
  destruct (crawl_turn web c) as [[c' evs] o] eqn:Hturn.
  apply crawl_turn_inv in Hturn
    as [(-> & -> & e & ->)|(ex & b & sv & _ & _ & Hc' & _ & Hturn)].
  { done. }
  simpl in Hturn.
  destruct Hturn as [(-> & _ & [->|[e ->]])|(url & -> & [[-> _]|[-> _]])];
    cbn [ended after events disk_after]; try done.
  rewrite IH. unfold last_persisted. rewrite foldl_app. simpl. by rewrite Hc'.
Qed.

(** Once the flag is [false], the loop only ever extends the file. *)
Lemma crawl_loop_extends fuel web c existing :
  _overwriteDependentsFile c = false →
  dependentsFile c = Some existing →
  ∃ post, disk_after (crawl_loop fuel web c) = Some (existing ++ post).
Proof.
  revert c existing. induction fuel as [|fuel IH]; intros c existing Hc Hfile.
  { exists []. by rewrite app_nil_r. }
  rewrite crawl_loop_S.
  destruct (crawl_turn web c) as [[c' evs] o] eqn:Hturn.
  apply crawl_turn_inv in Hturn
    as [(-> & -> & e & ->)|(ex & b & sv & Hex & Hsv & Hc' & Hflag & Hturn)].
  { exists []. by rewrite app_nil_r. }
  rewrite Hc in Hsv. rewrite Hfile in Hex. injection Hex as <-. subst sv.
  simpl in Hturn.
  destruct Hturn as [(-> & _ & [->|[e ->]])|(url & -> & [[-> _]|[-> _]])];
    cbn [ended after events disk_after]; eauto.
  destruct (IH c' _ Hflag Hc') as [post Hpost]. exists (b ++ post).
  by rewrite Hpost, app_assoc.
Qed.

(** Whatever a persist of the loop wrote is still there at the end. *)
Lemma crawl_loop_keeps fuel web c ow before batch saved :
  Persist ow before batch saved ∈ events (crawl_loop fuel web c) →
  ∃ pre post, saved = Some (pre ++ batch)
              ∧ disk_after (crawl_loop fuel web c) = Some (pre ++ batch ++ post).
Proof.
  revert c. induction fuel as [|fuel IH]; intros c; [by inversion 1|].
  rewrite crawl_loop_S.
  destruct (crawl_turn web c) as [[c' evs] o] eqn:Hturn.
  apply crawl_turn_inv in Hturn
    as [(-> & -> & e & ->)|(ex & b & sv & _ & Hsv & Hc' & Hflag & Hturn)].
  { by inversion 1. }
  assert (Hpre : ∃ pre, sv = pre ++ b).
  { destruct (_overwriteDependentsFile c); subst sv; [by exists []|by exists ex]. }
  destruct Hpre as [pre Hpre]. clear Hsv.
  simpl in Hturn.
  destruct Hturn as [(-> & _ & [->|[e ->]])|(url & -> & [[-> _]|[-> _]])];
    cbn [ended after events disk_after]; intros H; set_unfold in H;
    destruct_or! H; simplify_eq;
    try (exists pre, []; rewrite Hc', app_nil_r; done).
  - destruct (crawl_loop_extends fuel web c' _ Hflag Hc') as [post Hpost].
    exists pre, post. rewrite Hpost, app_assoc. done.
  - by apply (IH c').
Qed.

(** The first page: the second data row does not match and is skipped. *)
Lemma C4_parseDependents_rows_witness :
  pushed (tryChild (row "no stars here")) = None
  ∧ parseDependents page1
    = (Some [alice; bob], [console_error TypeError; console_log "no stars here"])
  ∧ (parseDependents page1).1
    = (parseDependents
         {| box := Some [header; row "alice / widget 10 2"; row "bob / gadget 3 1"];
            pagination := [disabled_button; link url2] |}).1.
Proof.
  assert (Hmal : pushed (tryChild (row "no stars here")) = None)
    by (vm_compute; reflexivity).
  split; [exact Hmal|]. split.
  - unfold page1.
    rewrite (proj1 (proj2 (C4_parseDependents_rows
               [header; row "alice / widget 10 2"; row "no stars here";
                row "bob / gadget 3 1"] [disabled_button; link url2]))).
    vm_compute. reflexivity.
  - exact (proj2 (proj2 (proj2 (proj2 (C4_parseDependents_rows
             [header; row "alice / widget 10 2"; row "no stars here";
              row "bob / gadget 3 1"] [disabled_button; link url2]))))
             header [row "alice / widget 10 2"] (row "no stars here")
             [row "bob / gadget 3 1"] Hmal).
Defined.

(** ** Resuming *)

(** Where a resumed run enters the page loop. *)
Lemma resumeCrawlFromFile_enters fuel web store lastDependent P pageP next pageNext tab :
  last store = Some lastDependent →
  previousGithubDependentsPageUrl lastDependent = Some P →
  web P = Some pageP →
  getNextDependentsPageUrl pageP = Ok (Some next) →
  web next = Some pageNext →
  resumeCrawlFromFile fuel web (Some store) tab
  = after [Goto P; Goto next] (startCrawl fuel web (Some store) pageNext false).
Proof.
  intros Hlast HP HwebP Hnext Hwebnext. unfold resumeCrawlFromFile. simpl.
  by rewrite Hlast, HP, HwebP, Hnext, Hwebnext.
Qed.

(** C3 (the code departs from the claim).  The store
    [alice; bob; carol] is what a fresh crawl of [site] leaves; its last
    record points back to the first page.  Resuming goes to the first
    page, follows its next link and enters the loop at the second page, as
    the claim says; but the loop then persists [carol] again, although the
    store already holds that very record: the duplicate check runs on the
    record as parsed, before [previousGithubDependentsPageUrl] is set, so
    it never equals the stored one. *)
Theorem C3_resume_persists_last_page_again :
  let store := [alice; bob; carol] in
  let resumed := resumeCrawlFromFile 2 site (Some store) blank in
  disk_after (start 2 ["ownerA/repoB"; "dependents.json"] site None) = Some store
  ∧ last store = Some carol
  ∧ previousGithubDependentsPageUrl carol = Some url1
  ∧ carol ∈ store
  ∧ outcome resumed = Done
  ∧ events resumed
    = [Goto url1; Goto url2;
       Persist false (Some store) [carol] (Some (store ++ [carol]))]
  ∧ disk_after resumed = Some [alice; bob; carol; carol].
Proof.
  cbv zeta. repeat split; try (vm_compute; reflexivity).
  set_unfold. tauto.
Qed.

(** C8.  Resuming on a store that holds no record throws "appears to be
    empty" when it takes the last record: the tab is not moved, no page is
    parsed, nothing is persisted and the file is left as it was.  The same
    holds for an invocation whose resume flag is set. *)
Theorem C8_resume_on_empty_store fuel web tab :
  resumeCrawlFromFile fuel web (Some []) tab
  = {| outcome := Uncaught FileAppearsEmpty; disk_after := Some [];
       tab_after := tab; events := [] |}
  ∧ ∀ argv githubOwnerAndRepo dependentsFile,
      getArgs argv = Ok (githubOwnerAndRepo, dependentsFile, true) →
      start fuel argv web (Some [])
      = {| outcome := Uncaught FileAppearsEmpty; disk_after := Some [];
           tab_after := blank; events := [] |}.
Proof.
  split; [done|]. intros argv g f Hargs. unfold start. by rewrite Hargs.
Qed.

Lemma C8_resume_on_empty_store_witness :
  getArgs ["ownerA/repoB"; "dependents.json"; "true"]
  = Ok ("ownerA/repoB", "dependents.json", true)
  ∧ start 5 ["ownerA/repoB"; "dependents.json"; "true"] site (Some [])
    = {| outcome := Uncaught FileAppearsEmpty; disk_after := Some [];
         tab_after := blank; events := [] |}.
Proof.
  split; [vm_compute; reflexivity|].
  apply (proj2 (C8_resume_on_empty_store 5 site blank)
           ["ownerA/repoB"; "dependents.json"; "true"]
           "ownerA/repoB" "dependents.json").
  vm_compute. reflexivity.
Defined.

(** ** Boundaries and failures of the Navigator *)

(** What the Navigator does at the boundaries, and when it throws.
    (1) When the control found for the previous link, the anchor
    that is the first child or else the first button, carries
    [disabled="disabled"], the previous-link lookup succeeds with "no
    previous page".  (2) When no anchor is the second child and the
    previous-link lookup gives a link, the next-link lookup succeeds with
    "no next page", and (3) a page loop that reaches such a page ends in
    [Done].  (4, 5) A lookup throws exactly when the selectors it tries
    find nothing: for the previous link, no anchor as first child and no
    button; for the next link, no anchor as second child and either the
    previous lookup throws, or it reports "no previous page" and the page
    has no anchor at all. *)
Lemma navigator_boundary_and_failure :
  (∀ page element,
     waitForSelector page (sel_a_nth_child 1) = Some element
     ∨ (waitForSelector page (sel_a_nth_child 1) = None
        ∧ waitForSelector page sel_button = Some element) →
     disabled element = Some "disabled" →
     getPreviousDependentsPageUrl page = Ok None)
  ∧ (∀ page url,
       waitForSelector page (sel_a_nth_child 2) = None →
       getPreviousDependentsPageUrl page = Ok (Some url) →
       getNextDependentsPageUrl page = Ok None)
  ∧ (∀ fuel web existing shown overwriteDependentsFile parsed url,
       (parseDependents shown).1 = Some parsed →
       waitForSelector shown (sel_a_nth_child 2) = None →
       getPreviousDependentsPageUrl shown = Ok (Some url) →
       outcome (startCrawl (S fuel) web (Some existing) shown overwriteDependentsFile)
       = Done)
  ∧ (∀ page e,
       getPreviousDependentsPageUrl page = Throw e
       ↔ e = NoPreviousButton
         ∧ waitForSelector page (sel_a_nth_child 1) = None
         ∧ waitForSelector page sel_button = None)
  ∧ (∀ page e,
       getNextDependentsPageUrl page = Throw e
       ↔ e = NoNextButton
         ∧ waitForSelector page (sel_a_nth_child 2) = None
         ∧ ((waitForSelector page (sel_a_nth_child 1) = None
             ∧ waitForSelector page sel_button = None)
            ∨ (getPreviousDependentsPageUrl page = Ok None
               ∧ waitForSelector page sel_a = None))).
Proof.
  split; [|split; [|split; [|split]]].
  - intros page element Hfound Hdisabled. unfold getPreviousDependentsPageUrl.
    destruct Hfound as [->|[-> ->]]; unfold evaluate; by rewrite Hdisabled.
  - intros page url Hnone Hprev. unfold getNextDependentsPageUrl.
    by rewrite Hnone, Hprev.
  - intros fuel web existing shown ow parsed url Hparsed Hnone Hprev.
    unfold startCrawl. rewrite crawl_loop_S. unfold crawl_turn.
    cbn [dependentsFile page _overwriteDependentsFile].
    rewrite Hparsed. simpl. rewrite Hprev.
    unfold saveDependentsToFile, getNextDependentsPageUrl.
    rewrite Hnone, Hprev. by destruct ow.
  - apply getPreviousDependentsPageUrl_throws.
  - apply getNextDependentsPageUrl_throws.
Qed.

Lemma navigator_boundary_and_failure_example :
  getPreviousDependentsPageUrl page1 = Ok None
  ∧ getNextDependentsPageUrl page2 = Ok None
  ∧ outcome (startCrawl 1 site (Some [alice; bob]) page2 false) = Done
  ∧ getNextDependentsPageUrl blank = Throw NoNextButton.
Proof.
  destruct navigator_boundary_and_failure as (Hprev & Hnext & Hdone & _ & Hthrow).
  split; [|split; [|split]].
  - apply (Hprev page1 disabled_button); [right; split; reflexivity|reflexivity].
  - apply (Hnext page2 url1); reflexivity.
  - apply (Hdone 0 site [alice; bob] page2 false
             [{| owner := "carol"; repo := "thing"; stars := Num 1234;
                 forks := Num 5; previousGithubDependentsPageUrl := None |}] url1);
      vm_compute; reflexivity.
  - apply Hthrow. split; [reflexivity|]. split; [reflexivity|]. left.
    split; reflexivity.
Qed.

(** C5 (the code departs from the claim).  On a listing of a single page
    both pagination controls are disabled buttons.  The previous-link
    lookup falls back to the first button and reports "no previous page".
    The next-link lookup looks for anchors only: it finds neither an
    anchor as second child nor any anchor, and throws, although the next
    control is on the page and is marked disabled, so that the check of
    lines 153-158 on it would report "no next page".  The crawl ends
    aborted by the next-link lookup and not in [Done]. *)
Theorem C5_next_lookup_throws_on_a_disabled_next_button :
  pagination page_single = [disabled_button; disabled_button]
  ∧ disabled disabled_button = Some "disabled"
  ∧ evaluate disabled_button = None
  ∧ getPreviousDependentsPageUrl page_single = Ok None
  ∧ getNextDependentsPageUrl page_single = Throw NoNextButton
  ∧ outcome (startCrawl 1 site (Some []) page_single true) = Aborted NoNextButton.
Proof. repeat split. Qed.

(** ** The overwrite flag *)

(** C6.  (1) A turn of the page loop leaves [_overwriteDependentsFile]
    [true] only if it was [true] before the turn and the turn persisted
    nothing; so it is [false] after the first persist and is never set
    back.  (2) In a run of [startCrawl] the first persist finds the flag
    as passed and every later persist finds it [false].  (3) A resumed
    run never persists with the flag [true].  (4) In an invocation the
    flag is [true] only without the resume flag: after the initial
    overwrite with the empty sequence, only the first persist of the loop
    finds it [true].  (5) A persist that finds the flag [false] writes the
    previous content followed by the batch.  (6) In an invocation every
    persist but the initial overwrite writes the previous content followed
    by the batch: the one persist of the loop that finds the flag [true]
    finds the empty sequence in the file.  (7) A turn that gets as far as
    the save, on a page that parses, a file that can be read and a
    previous-link lookup that returns, persists with the flag as it finds
    it and leaves the flag [false]. *)
Theorem C6_overwrite_flag :
  (∀ web c,
     _overwriteDependentsFile (crawl_turn web c).1.1 = true →
     _overwriteDependentsFile c = true ∧ (crawl_turn web c).1.2 = [])
  ∧ (∀ fuel web disk page overwriteDependentsFile,
       let flags :=
         persist_flags (events (startCrawl fuel web disk page overwriteDependentsFile)) in
       flags = [] ∨ ∃ k, flags = overwriteDependentsFile :: replicate k false)
  ∧ (∀ fuel web disk tab,
       ∃ k, persist_flags (events (resumeCrawlFromFile fuel web disk tab))
            = replicate k false)
  ∧ (∀ fuel argv web disk githubOwnerAndRepo dependentsFile resumeCrawl,
       getArgs argv = Ok (githubOwnerAndRepo, dependentsFile, resumeCrawl) →
       let flags := persist_flags (events (start fuel argv web disk)) in
       if resumeCrawl then ∃ k, flags = replicate k false
       else flags = [] ∨ flags = [true] ∨ ∃ k, flags = true :: true :: replicate k false)
  ∧ (∀ fuel web disk page overwriteDependentsFile before batch saved,
       Persist false before batch saved
       ∈ events (startCrawl fuel web disk page overwriteDependentsFile) →
       ∃ existing, before = Some existing ∧ saved = Some (existing ++ batch))
  ∧ (∀ fuel argv web disk overwrite before batch saved,
       Persist overwrite before batch saved ∈ events (start fuel argv web disk) →
       (∃ existing, before = Some existing ∧ saved = Some (existing ++ batch))
       ∨ (overwrite = true ∧ before = disk ∧ batch = [] ∧ saved = Some []))
  ∧ (∀ web c parsed existing previousPageUrl,
       (parseDependents (page c)).1 = Some parsed →
       dependentsFile c = Some existing →
       getPreviousDependentsPageUrl (page c) = Ok previousPageUrl →
       ∃ batch rest,
         (crawl_turn web c).1.2
         = Persist (_overwriteDependentsFile c) (Some existing) batch
             (Some (if _overwriteDependentsFile c then batch else existing ++ batch))
           :: rest
         ∧ _overwriteDependentsFile (crawl_turn web c).1.1 = false).
Proof.
  assert (Hresume : ∀ fuel web disk tab,
    ∃ k, persist_flags (events (resumeCrawlFromFile fuel web disk tab))
         = replicate k false).
  { intros fuel web disk tab. unfold resumeCrawlFromFile.
    destruct (getDependentsFromFile disk) as [json|e]; [|by exists 0].
    destruct (last json) as [lastDependent|]; [|by exists 0].
    destruct (previousGithubDependentsPageUrl lastDependent) as [url|];
      [|by apply crawl_loop_flags_false].
    destruct (web url) as [pageP|]; [|by exists 0].
    destruct (getNextDependentsPageUrl pageP) as [[next|]|e]; try by exists 0.
    destruct (web next) as [pageNext|]; [|by exists 0].
    unfold startCrawl. cbn [after events].
    by apply crawl_loop_flags_false. }
  split; [|split; [|split; [|split; [|split; [|split]]]]].
  - intros web c Hflag.
    destruct (crawl_turn web c) as [[c' evs] o] eqn:Hturn. simpl in *.
    apply crawl_turn_inv in Hturn as [(-> & -> & _)|(? & ? & ? & _ & _ & _ & Hc' & _)];
      [done|congruence].
  - intros fuel web disk page ow. apply crawl_loop_flags.
  - exact Hresume.
  - intros fuel argv web disk g f resume Hargs. cbv zeta. unfold start.
    rewrite Hargs. destruct resume; [apply Hresume|].
    destruct (web _) as [first|]; [|by left]. cbn [saveDependentsToFile negb].
    cbn [after events persist_flags omap list_omap app].
    fold (persist_flags (events (startCrawl fuel web (Some []) first true))).
    destruct (crawl_loop_flags fuel web
                {| dependentsFile := Some []; page := first;
                   _overwriteDependentsFile := true |}) as [H|[k H]];
      unfold startCrawl; rewrite H; eauto.
  - intros fuel web disk page ow before batch saved. apply crawl_loop_appends.
  - intros fuel argv web disk ow before batch saved. unfold start.
    destruct (getArgs argv) as [[[g f] [|]]|e]; [| |by inversion 1].
    + unfold resumeCrawlFromFile.
      destruct (getDependentsFromFile disk) as [json|e]; [|by inversion 1].
      destruct (last json) as [lastDependent|]; [|by inversion 1].
      destruct (previousGithubDependentsPageUrl lastDependent) as [url|].
      * destruct (web url) as [pageP|];
          [|intros H; set_unfold in H; destruct_or! H; simplify_eq].
        destruct (getNextDependentsPageUrl pageP) as [[next|]|e];
          try (intros H; set_unfold in H; destruct_or! H; by simplify_eq).
        destruct (web next) as [pageNext|];
          intros H; set_unfold in H; destruct_or! H; simplify_eq.
        left. destruct ow; [by apply crawl_loop_no_overwrite in H|].
        by apply crawl_loop_appends in H.
      * intros H. left. destruct ow; [by apply crawl_loop_no_overwrite in H|].
        by apply crawl_loop_appends in H.
    + destruct (web _) as [first|];
        [|intros H; set_unfold in H; destruct_or! H; simplify_eq].
      cbn [saveDependentsToFile negb after events].
      intros H. set_unfold in H. destruct_or! H; simplify_eq; [by right|].
      left. destruct ow.
      * apply crawl_loop_overwrite_empty in H as [-> ->]; [eauto|done].
      * by apply crawl_loop_appends in H.
  - intros web c parsed existing prev Hparsed Hfile Hprev. unfold crawl_turn.
    rewrite Hparsed, Hfile, removeDuplicateDependents_closed, Hprev.
    unfold saveDependentsToFile.
    destruct (_overwriteDependentsFile c); cbn [negb getDependentsFromFile mbind
      result_bind page];
      destruct (getNextDependentsPageUrl (page c)) as [[next|]|e];
      try destruct (web next); cbn [fst snd _overwriteDependentsFile]; eauto.
Qed.

(** A fresh crawl of the two pages of [site]: the initial overwrite and
    the first persist of the loop find the flag [true], the second persist
    finds it [false]; and a resumed crawl. *)
Lemma C6_overwrite_flag_witness :
  let fresh := ["ownerA/repoB"; "dependents.json"] in
  let resumed := ["ownerA/repoB"; "dependents.json"; "true"] in
  let first_turn :=
    crawl_turn site {| dependentsFile := Some []; page := page1;
                       _overwriteDependentsFile := true |} in
  getArgs fresh = Ok ("ownerA/repoB", "dependents.json", false)
  ∧ (let flags := persist_flags (events (start 5 fresh site None)) in
     (flags = [] ∨ flags = [true] ∨ ∃ k, flags = true :: true :: replicate k false)
     ∧ flags = [true; true; false])
  ∧ (∃ batch rest,
       first_turn.1.2 = Persist true (Some []) batch (Some batch) :: rest
       ∧ _overwriteDependentsFile first_turn.1.1 = false)
  ∧ getArgs resumed = Ok ("ownerA/repoB", "dependents.json", true)
  ∧ (let flags := persist_flags
                    (events (start 5 resumed site (Some [alice; bob; carol]))) in
     (∃ k, flags = replicate k false) ∧ flags = [false]).
Proof.
  cbv zeta.
  destruct C6_overwrite_flag as (_ & _ & _ & Hstart & _ & _ & Hturn).
  assert (Hfresh : getArgs ["ownerA/repoB"; "dependents.json"]
                   = Ok ("ownerA/repoB", "dependents.json", false))
    by (vm_compute; reflexivity).
  assert (Hresumed : getArgs ["ownerA/repoB"; "dependents.json"; "true"]
                     = Ok ("ownerA/repoB", "dependents.json", true))
    by (vm_compute; reflexivity).
  split; [exact Hfresh|]. split.
  { split; [exact (Hstart 5 _ site None _ _ false Hfresh)|].
    vm_compute. reflexivity. }
  split.
  { apply (Hturn site {| dependentsFile := Some []; page := page1;
                         _overwriteDependentsFile := true |}
             [alice; bob] [] None); vm_compute; reflexivity. }
  split; [exact Hresumed|]. split.
  - exact (Hstart 5 _ site (Some [alice; bob; carol]) _ _ true Hresumed).
  - vm_compute. reflexivity.
Defined.

(** ** Aborted runs *)

Lemma saveDependentsToFile_with_Written dependentsFile dependents overwrite :
  saveDependentsToFile_with Written dependentsFile dependents overwrite
  = match saveDependentsToFile dependentsFile dependents overwrite with
    | Ok saved => (saved, None)
    | Throw e => (dependentsFile, Some e)
    end.
Proof.
  unfold saveDependentsToFile_with, saveDependentsToFile.
  destruct overwrite; [done|]. by destruct dependentsFile.
Qed.

(** With writes that return, the turn is the one of [crawl_turn]. *)
Lemma crawl_turn_with_Written web c : crawl_turn_with Written web c = crawl_turn web c.
Proof.
  unfold crawl_turn_with, crawl_turn.
  destruct (parseDependents (page c)).1 as [parsed|]; [|done].
  destruct (removeDuplicateDependents _ _) as [kept|e]; [|done].
  destruct (getPreviousDependentsPageUrl (page c)) as [prev|e]; [|done].
  rewrite saveDependentsToFile_with_Written.
  destruct (saveDependentsToFile _ _ _) as [saved|e]; [done|]. by destruct c.
Qed.

Lemma crawl_loop_with_S fuel faults web c :
  crawl_loop_with (S fuel) faults web c
  = match crawl_turn_with (default Written (head faults)) web c with
    | (c', evs, Some o) => ended o c' evs
    | (c', evs, None) => after evs (crawl_loop_with fuel (tail faults) web c')
    end.
Proof. reflexivity. Qed.

Lemma crawl_loop_with_reliable fuel faults web c :
  Forall (λ fault, fault = Written) faults →
  crawl_loop_with fuel faults web c = crawl_loop fuel web c.
Proof.
  revert faults c. induction fuel as [|fuel IH]; intros faults c Hfaults; [done|].
  rewrite crawl_loop_with_S, crawl_loop_S.
  assert (default Written (head faults) = Written) as ->
    by (destruct Hfaults; done).
  rewrite crawl_turn_with_Written.
  destruct (crawl_turn web c) as [[c' evs] [o|]]; [done|].
  rewrite IH; [done|]. destruct Hfaults; [done|]. done.
Qed.

(** A turn whose write returns or leaves the file as it was goes one of
    the ways of [crawl_turn_inv]. *)
Lemma crawl_turn_with_inv fault web c c' evs o :
  fault ≠ Truncated →
  crawl_turn_with fault web c = (c', evs, o) →
  (c' = c ∧ evs = [] ∧ ∃ e, o = Some (Aborted e))
  ∨ ∃ existing batch saved,
      dependentsFile c = Some existing
      ∧ saved = (if _overwriteDependentsFile c then batch else existing ++ batch)
      ∧ dependentsFile c' = Some saved
      ∧ _overwriteDependentsFile c' = false
      ∧ let persist :=
          Persist (_overwriteDependentsFile c) (Some existing) batch (Some saved) in
        (evs = [persist] ∧ page c' = page c
         ∧ (o = Some Done ∨ ∃ e, o = Some (Aborted e)))
        ∨ ∃ url, evs = [persist; Goto url]
            ∧ ((o = Some (Aborted GotoFailed) ∧ page c' = page c)
               ∨ (o = None ∧ web url = Some (page c'))).
Proof.
  intros Hfault. destruct fault; [| |done].
  { rewrite crawl_turn_with_Written. apply crawl_turn_inv. }
  unfold crawl_turn_with. destruct c as [file shown ow].
  cbn [dependentsFile page _overwriteDependentsFile]. intros H. left.
  destruct (parseDependents shown).1 as [parsed|];
    [|injection H as <- <- <-; eauto].
  destruct file as [existing|]; simpl in H; [|injection H as <- <- <-; eauto].
  destruct (getPreviousDependentsPageUrl shown) as [prev|e];
    [|injection H as <- <- <-; eauto].
  unfold saveDependentsToFile_with in H.
  destruct ow; simpl in H; injection H as <- <- <-; eauto.
Qed.

Lemma no_truncation_step faults :
  Forall (λ fault, fault ≠ Truncated) faults →
  default Written (head faults) ≠ Truncated
  ∧ Forall (λ fault, fault ≠ Truncated) (tail faults).
Proof. intros H. destruct H as [|fault rest Hfault Hrest]; by split. Qed.

Lemma crawl_loop_with_disk_after fuel faults web c :
  Forall (λ fault, fault ≠ Truncated) faults →
  disk_after (crawl_loop_with fuel faults web c)
  = last_persisted (dependentsFile c) (events (crawl_loop_with fuel faults web c)).
Proof.
  revert faults c. induction fuel as [|fuel IH]; intros faults c Hfaults; [done|].
  apply no_truncation_step in Hfaults as [Hhead Htail].
  rewrite crawl_loop_with_S.
  destruct (crawl_turn_with _ web c) as [[c' evs] o] eqn:Hturn.
  apply crawl_turn_with_inv in Hturn
    as [(-> & -> & e & ->)|(ex & b & sv & _ & _ & Hc' & _ & Hturn)]; [done| |done].
  simpl in Hturn.
  destruct Hturn as [(-> & _ & [->|[e ->]])|(url & -> & [[-> _]|[-> _]])];
    cbn [ended after events disk_after]; try done.
  rewrite IH by done. unfold last_persisted. rewrite foldl_app. simpl.
  by rewrite Hc'.
Qed.

Lemma crawl_loop_with_extends fuel faults web c existing :
  Forall (λ fault, fault ≠ Truncated) faults →
  _overwriteDependentsFile c = false →
  dependentsFile c = Some existing →
  ∃ post, disk_after (crawl_loop_with fuel faults web c) = Some (existing ++ post).
Proof.
  revert faults c existing.
  induction fuel as [|fuel IH]; intros faults c existing Hfaults Hc Hfile.
  { exists []. by rewrite app_nil_r. }
  apply no_truncation_step in Hfaults as [Hhead Htail].
  rewrite crawl_loop_with_S.
  destruct (crawl_turn_with _ web c) as [[c' evs] o] eqn:Hturn.
  apply crawl_turn_with_inv in Hturn
    as [(-> & -> & e & ->)|(ex & b & sv & Hex & Hsv & Hc' & Hflag & Hturn)];
    [| |done].
  { exists []. by rewrite app_nil_r. }
  rewrite Hc in Hsv. rewrite Hfile in Hex. injection Hex as <-. subst sv.
  simpl in Hturn.
  destruct Hturn as [(-> & _ & [->|[e ->]])|(url & -> & [[-> _]|[-> _]])];
    cbn [ended after events disk_after]; eauto.
  destruct (IH _ c' _ Htail Hflag Hc') as [post Hpost]. exists (b ++ post).
  by rewrite Hpost, app_assoc.
Qed.

Lemma crawl_loop_with_keeps fuel faults web c :
  Forall (λ fault, fault ≠ Truncated) faults →
  keeps_persisted_pages (crawl_loop_with fuel faults web c).
Proof.
  revert faults c. induction fuel as [|fuel IH]; intros faults c Hfaults;
    [by intros ow before batch saved; inversion 1|].
  apply no_truncation_step in Hfaults as [Hhead Htail].
  rewrite crawl_loop_with_S.
  destruct (crawl_turn_with _ web c) as [[c' evs] o] eqn:Hturn.
  apply crawl_turn_with_inv in Hturn
    as [(-> & -> & e & ->)|(ex & b & sv & _ & Hsv & Hc' & Hflag & Hturn)];
    [| |done].
  { by intros ow before batch saved; inversion 1. }
  assert (Hpre : ∃ pre, sv = pre ++ b).
  { destruct (_overwriteDependentsFile c); subst sv; [by exists []|by exists ex]. }
  destruct Hpre as [pre Hpre]. clear Hsv.
  simpl in Hturn. intros ow before batch saved.
  destruct Hturn as [(-> & _ & [->|[e ->]])|(url & -> & [[-> _]|[-> _]])];
    cbn [ended after events disk_after]; intros H; set_unfold in H;
    destruct_or! H; simplify_eq;
    try (exists pre, []; rewrite Hc', app_nil_r; done).
  - destruct (crawl_loop_with_extends fuel (tail faults) web c' _ Htail Hflag Hc')
      as [post Hpost].
    exists pre, post. rewrite Hpost, app_assoc. done.
  - exact (IH (tail faults) c' Htail _ _ _ _ H).
Qed.

(** C7 (as amended).  When no write of the run fails after the file is
    opened, a run of the page loop that is aborted, by an extraction that
    yields nothing, a navigation failure, a rejected navigation, a file
    that cannot be read or a write that cannot open the file, leaves in
    the file what the last persist of the run wrote, and the content
    written by every persist of the run is an initial part of it: the
    batch of every completed page is still there, in place. *)
Theorem C7_abort_keeps_persisted_pages fuel faults web disk shown
    overwriteDependentsFile e :
  Forall (λ fault, fault ≠ Truncated) faults →
  let run := startCrawl_with fuel faults web disk shown overwriteDependentsFile in
  outcome run = Aborted e →
  disk_after run = last_persisted disk (events run)
  ∧ keeps_persisted_pages run.
Proof.
  intros Hfaults run _. split.
  - by apply (crawl_loop_with_disk_after fuel faults web
                {| dependentsFile := disk; page := shown;
                   _overwriteDependentsFile := overwriteDependentsFile |}).
  - by apply crawl_loop_with_keeps.
Qed.

(** The second write of a crawl of [site] cannot open the file: the run is
    aborted by the store and the first page is still in the file. *)
Lemma C7_abort_keeps_persisted_pages_witness :
  Forall (λ fault, fault ≠ Truncated) [Written; NotOpened]
  ∧ outcome run_with_refused_write = Aborted WriteFailed
  ∧ Persist true (Some []) [alice; bob] (Some [alice; bob])
    ∈ events run_with_refused_write
  ∧ disk_after run_with_refused_write
    = last_persisted (Some []) (events run_with_refused_write)
  ∧ keeps_persisted_pages run_with_refused_write
  ∧ disk_after run_with_refused_write = Some [alice; bob].
Proof.
  assert (Hfaults : Forall (λ fault, fault ≠ Truncated) [Written; NotOpened])
    by (repeat constructor; discriminate).
  assert (Hout : outcome run_with_refused_write = Aborted WriteFailed)
    by (vm_compute; reflexivity).
  destruct (C7_abort_keeps_persisted_pages 5 [Written; NotOpened] site (Some [])
              page1 true WriteFailed Hfaults Hout) as [Hdisk Hkeep].
  split; [exact Hfaults|]. split; [exact Hout|]. split.
  { replace (events run_with_refused_write)
      with [Persist true (Some []) [alice; bob] (Some [alice; bob]); Goto url2]
      by (vm_compute; reflexivity).
    apply list_elem_of_here. }
  split; [exact Hdisk|]. split; [exact Hkeep|]. vm_compute. reflexivity.
Defined.

(** C7 (the claim as stated fails).  Every persist rewrites the whole
    file.  When the second write of a crawl of [site] fails after the
    file is opened, the run is aborted by the store and the file no
    longer holds the records of the first page, which the first turn had
    persisted. *)
Lemma C7_truncating_write_loses_persisted_pages :
  outcome run_with_truncating_write = Aborted WriteFailed
  ∧ Persist true (Some []) [alice; bob] (Some [alice; bob])
    ∈ events run_with_truncating_write
  ∧ disk_after run_with_truncating_write = None
  ∧ ¬ keeps_persisted_pages run_with_truncating_write.
Proof.
  assert (Hev : Persist true (Some []) [alice; bob] (Some [alice; bob])
                ∈ events run_with_truncating_write).
  { replace (events run_with_truncating_write)
      with [Persist true (Some []) [alice; bob] (Some [alice; bob]); Goto url2]
      by (vm_compute; reflexivity).
    apply list_elem_of_here. }
  assert (Hdisk : disk_after run_with_truncating_write = None)
    by (vm_compute; reflexivity).
  split; [vm_compute; reflexivity|]. split; [exact Hev|]. split; [exact Hdisk|].
  intros Hkeeps. destruct (Hkeeps _ _ _ _ Hev) as (pre & post & _ & Hafter).
  rewrite Hdisk in Hafter. discriminate.
Qed.

(** ** Invocation *)

(** C9 (the code departs from the claim).  The check of the file path
    searches for [\w+.json] anywhere in the path, with a dot that stands
    for any character: [dependents.json.bak] and [dependents_json], which
    do not end in [.json], are accepted, and [.json], which does, is
    rejected. *)
Theorem C9_getArgs_file_check_is_not_the_json_suffix :
  getArgs ["ownerA/repoB"; "dependents.json.bak"]
  = Ok ("ownerA/repoB", "dependents.json.bak", false)
  ∧ endsWith ".json" "dependents.json.bak" = false
  ∧ getArgs ["ownerA/repoB"; "dependents_json"]
    = Ok ("ownerA/repoB", "dependents_json", false)
  ∧ endsWith ".json" "dependents_json" = false
  ∧ getArgs ["ownerA/repoB"; ".json"] = Throw BadDependentsFile
  ∧ endsWith ".json" ".json" = true.
Proof. repeat split; vm_compute; reflexivity. Qed.

(** C10.  When [getArgs] returns and a third argument was given, that
    argument is ["true"] or ["false"] and the resume flag returned is
    [true] in both cases; the flag is [false] only when there is no third
    argument; and with a third argument [start] resumes. *)
Theorem C10_resume_flag_of_third_argument argv githubOwnerAndRepo dependentsFile
    resumeCrawl :
  getArgs argv = Ok (githubOwnerAndRepo, dependentsFile, resumeCrawl) →
  (∀ third, argv !! 2 = Some third →
     (third = "true" ∨ third = "false") ∧ resumeCrawl = true
     ∧ ∀ fuel web disk,
         start fuel argv web disk = resumeCrawlFromFile fuel web disk blank)
  ∧ (resumeCrawl = false ↔ argv !! 2 = None).
Proof.
  intros Hargs. pose proof Hargs as Hstart. unfold getArgs in Hargs.
  destruct (argv !! 0) as [g|]; [|done].
  destruct (Regex.exec owner_and_repo_re g); [|done].
  destruct (argv !! 1) as [f|]; [|done].
  destruct (Regex.exec json_file_re f); [|done].
  case_bool_decide as Hthird; [done|]. injection Hargs as <- <- <-.
  destruct (argv !! 2) as [third|] eqn:H2.
  - assert (third = "true" ∨ third = "false") as Hvalid.
    { destruct (decide (third = "true")) as [|Hnt]; [by left|].
      destruct (decide (third = "false")) as [|Hnf]; [by right|].
      exfalso. apply Hthird. repeat split; congruence. }
    split.
    + intros ? [= <-]. split; [done|].
      split; [by destruct Hvalid as [->| ->]|].
      intros fuel web disk. unfold start. rewrite Hstart.
      by destruct Hvalid as [->| ->].
    + by destruct Hvalid as [->| ->].
  - split; [done|]. done.
Qed.

Lemma C10_resume_flag_of_third_argument_witness :
  getArgs ["ownerA/repoB"; "dependents.json"; "false"]
  = Ok ("ownerA/repoB", "dependents.json", true)
  ∧ ∀ fuel web disk,
      start fuel ["ownerA/repoB"; "dependents.json"; "false"] web disk
      = resumeCrawlFromFile fuel web disk blank.
Proof.
  assert (Hargs : getArgs ["ownerA/repoB"; "dependents.json"; "false"]
                  = Ok ("ownerA/repoB", "dependents.json", true))
    by (vm_compute; reflexivity).
  split; [exact Hargs|].
  apply (proj1 (C10_resume_flag_of_third_argument
                  ["ownerA/repoB"; "dependents.json"; "false"]
                  "ownerA/repoB" "dependents.json" true Hargs) "false" eq_refl).
Defined.

(** * Further properties *)

(** ** The matcher and the language *)

Module RegexLangFacts.
Import Regex RegexLang.

Lemma append_cons ch x y : String ch x +:+ y = String ch (x +:+ y).
Proof. reflexivity. Qed.

Lemma append_assoc x y z : (x +:+ y) +:+ z = x +:+ y +:+ z.
Proof.
  induction x as [|ch x IH]; [done|]. rewrite !append_cons. by f_equal.
Qed.

Lemma append_nil_r x : x +:+ "" = x.
Proof. induction x as [|ch x IH]; [done|]. rewrite append_cons. by f_equal. Qed.

Lemma length_append x y : String.length (x +:+ y) = String.length x + String.length y.
Proof.
  induction x as [|ch x IH]; [done|]. rewrite append_cons. simpl. by rewrite IH.
Qed.

Lemma consumed_append x rest : consumed (x +:+ rest) rest = x.
Proof.
  unfold consumed. rewrite length_append.
  replace (String.length x + String.length rest - String.length rest)
    with (String.length x) by lia.
  induction x as [|ch x IH].
  - by destruct rest.
  - rewrite append_cons. simpl. by f_equal.
Qed.

Lemma captures_sound_cons Q i x c :
  Q i x → captures_sound Q c → captures_sound Q ((i, x) :: c).
Proof.
  intros HQ Hc j y Hin. apply elem_of_cons in Hin as [[= -> ->]|Hin]; [done|].
  by apply Hc.
Qed.

Lemma capture_elem_of i c x : capture i c = Some x → (i, x) ∈ c.
Proof.
  induction c as [|[j y] c IH]; simpl; [done|].
  destruct (Nat.eqb_spec i j) as [->|Hne].
  - intros [= ->]. left.
  - intros H. right. by apply IH.
Qed.

(** What the matcher finds is in the language, and what it records for a
    group is a text that the group matches. *)
Lemma run_sound {R : Type} Q r fuel :
  groups_sound Q r →
  ∀ input c (k : string → captures → option R) res,
    run r fuel input c k = Some res →
    ∃ x rest c', input = x +:+ rest ∧ matches r x ∧ k rest c' = Some res
                 ∧ (captures_sound Q c → captures_sound Q c').
Proof.
  induction r as [p|a IHa b IHb|a IHa|a IHa|j a IHa]; cbn [groups_sound];
    intros HQ input c k res H; cbn [run] in H.
  - destruct input as [|ch rest]; [done|]. destruct (p ch) eqn:Hp; [|done].
    exists (String ch ""), rest, c. split; [done|]. split; [by constructor|]. done.
  - destruct HQ as [HQa HQb].
    apply (IHa HQa) in H as (x1 & rest1 & c1 & -> & Hx1 & H & Hc1).
    apply (IHb HQb) in H as (x2 & rest2 & c2 & -> & Hx2 & H & Hc2).
    exists (x1 +:+ x2), rest2, c2. rewrite append_assoc.
    split; [done|]. split; [by constructor|]. split; [done|]. auto.
  - destruct (run a fuel input c k) as [res'|] eqn:Ha.
    + injection H as ->.
      apply (IHa HQ) in Ha as (x & rest & c' & -> & Hx & H & Hc').
      exists x, rest, c'. split; [done|]. split; [by constructor|]. done.
    + exists "", input, c. split; [done|]. split; [constructor|]. done.
  - assert (Hturns : ∀ n input c res,
      turns (run a fuel) k n input c = Some res →
      ∃ x rest c', input = x +:+ rest ∧ matches (Plus a) x ∧ k rest c' = Some res
                   ∧ (captures_sound Q c → captures_sound Q c'));
      [|by apply (Hturns fuel)].
    clear input c res H. induction n as [|n IHn]; intros input c res H;
      cbn [turns] in H; [done|].
    apply (IHa HQ) in H as (x & rest & c' & -> & Hx & H & Hc').
    destruct (turns (run a fuel) k n rest c') as [res'|] eqn:Hn.
    + injection H as ->.
      apply IHn in Hn as (y & rest2 & c2 & -> & Hy & H & Hc2).
      exists (x +:+ y), rest2, c2. rewrite append_assoc.
      split; [done|]. split; [by apply matches_plus_more|]. split; [done|]. auto.
    + exists x, rest, c'. split; [done|]. split; [by constructor|]. done.
  - destruct HQ as [HQj HQa].
    apply (IHa HQa) in H as (x & rest & c' & -> & Hx & H & Hc').
    rewrite consumed_append in H.
    exists x, rest, ((j, x) :: c'). split; [done|]. split; [by constructor|].
    split; [done|]. intros Hc. apply captures_sound_cons; auto.
Qed.

Lemma exec_sound Q r input res :
  groups_sound Q r → (∀ x, matches r x → Q 0 x) →
  exec r input = Some res →
  contains_match r input ∧ captures_sound Q res.
Proof.
  intros HQ HQ0.
  assert (Hhere : ∀ input res, match_here r input = Some res →
            contains_match r input ∧ captures_sound Q res).
  { clear input res. intros input res H. unfold match_here in H.
    apply (run_sound Q r _ HQ) in H as (x & rest & c' & -> & Hx & H & Hc').
    rewrite consumed_append in H. injection H as <-. split.
    - exists "", x, rest. done.
    - apply captures_sound_cons; [auto|]. apply Hc'. intros i y Hin.
      inversion Hin. }
  induction input as [|ch rest IH]; cbn [exec].
  - destruct (match_here r "") as [c|] eqn:Hm; [|done].
    intros [= <-]. by apply Hhere.
  - destruct (match_here r (String ch rest)) as [c|] eqn:Hm.
    + intros [= <-]. by apply Hhere.
    + intros H. destruct (IH H) as [(pre & x & post & -> & Hx) Hc].
      split; [|done]. by exists (String ch pre), x, post.
Qed.

Lemma consuming_nonempty r x : consuming r = true → matches r x → x ≠ "".
Proof.
  intros Hr Hx. induction Hx as [p ch Hp|a b x y Hx IHx Hy IHy| | | |a x y Hx IHx Hy IHy|];
    cbn [consuming] in Hr; try done; auto.
  - apply orb_true_iff in Hr as [Ha|Hb]; destruct x as [|ch x]; try done.
    + by destruct (IHx Ha).
    + by apply IHy.
  - destruct x as [|ch x]; [by destruct (IHx Hr)|done].
Qed.

(** With a bound above the length of the input, the turns of [a+] do not
    depend on the bound. *)
Lemma turns_fuel {R : Type} a fuel (k : string → captures → option R) :
  consuming a = true →
  ∀ m input c n1 n2,
    String.length input ≤ m → String.length input < n1 → String.length input < n2 →
    turns (run a fuel) k n1 input c = turns (run a fuel) k n2 input c.
Proof.
  intros Hc. induction m as [|m IHm]; intros input c n1 n2 Hm Hn1 Hn2;
    (destruct n1 as [|n1]; [lia|]); (destruct n2 as [|n2]; [lia|]);
    cbn [turns]; apply RegexFacts.run_ext; rewrite Hc; intros rest c' Hrest; [lia|].
  rewrite (IHm rest c' n1 n2) by lia. done.
Qed.

(** Whatever is in the language is found, as long as what follows is
    accepted by the continuation. *)
Lemma run_complete {R : Type} r x :
  matches r x → productive r = true →
  ∀ fuel rest c (k : string → captures → option R),
    String.length (x +:+ rest) < fuel →
    (∀ c', is_Some (k rest c')) →
    is_Some (run r fuel (x +:+ rest) c k).
Proof.
  induction 1 as [p ch Hp|a b x y Hx IHx Hy IHy|a|a x Hx IHx|a x Hx IHx
                 |a x y Hx IHx Hy IHy|i a x Hx IHx];
    cbn [productive]; intros Hr fuel rest c k Hfuel Hk; cbn [run].
  - rewrite append_cons. by rewrite Hp.
  - apply andb_true_iff in Hr as [Ha Hb]. rewrite append_assoc.
    apply IHx; [done|by rewrite <- append_assoc|].
    intros c'. apply IHy; [done| |done].
    rewrite !length_append in *. lia.
  - destruct (run a fuel ("" +:+ rest) c k); [done|]. apply Hk.
  - destruct (IHx Hr fuel rest c k Hfuel Hk) as [res ->]. done.
  - apply andb_true_iff in Hr as [Hc Ha].
    destruct fuel as [|n]; [lia|]. cbn [turns].
    apply IHx; [done|done|]. intros c'.
    destruct (turns (run a (S n)) k n rest c'); [done|]. apply Hk.
  - pose proof Hr as Hplus. apply andb_true_iff in Hr as [Hc Ha].
    destruct fuel as [|n]; [lia|]. cbn [turns]. rewrite append_assoc.
    apply IHx; [done|by rewrite <- append_assoc|]. intros c'.
    pose proof (consuming_nonempty a x Hc Hx) as Hne.
    assert (String.length (y +:+ rest) < n) as Hlen.
    { rewrite !length_append in *. destruct x; [done|]. simpl in Hfuel. lia. }
    rewrite (turns_fuel a (S n) k Hc (String.length (y +:+ rest)) _ _ n (S n))
      by lia.
    destruct (IHy Hplus (S n) rest c' k) as [res Hres]; [lia|done|].
    cbn [run] in Hres. by rewrite Hres.
  - apply IHx; [done|done|]. intros c'. apply Hk.
Qed.

Lemma exec_complete r input :
  productive r = true → contains_match r input → is_Some (exec r input).
Proof.
  intros Hr (pre & x & post & -> & Hx).
  induction pre as [|ch pre IH].
  - assert (is_Some (match_here r (x +:+ post))) as [c Hc].
    { unfold match_here. apply run_complete; [done|done|lia|]. by eexists. }
    change ("" +:+ x +:+ post) with (x +:+ post).
    destruct (x +:+ post); cbn [exec]; by rewrite Hc.
  - rewrite append_cons. cbn [exec].
    destruct (match_here r _); [done|]. apply IH.
Qed.

(** The matcher and the language agree. *)
Lemma exec_is_Some r input :
  productive r = true → is_Some (exec r input) ↔ contains_match r input.
Proof.
  intros Hr. split.
  - intros [res Hres].
    apply (exec_sound (λ _ _, True) r input res); [|done|done].
    clear. induction r; cbn [groups_sound]; auto.
  - by apply exec_complete.
Qed.

End RegexLangFacts.

Import RegexLangFacts.

Lemma all_chars_append p x y :
  all_chars p (x +:+ y) = all_chars p x && all_chars p y.
Proof.
  induction x as [|ch x IH]; [done|]. rewrite append_cons. simpl.
  by rewrite IH, andb_assoc.
Qed.

Lemma matches_cls_inv p x :
  matches (Regex.Cls p) x → ∃ ch, x = String ch "" ∧ p ch = true.
Proof. inversion 1; subst. eauto. Qed.

Lemma matches_cat_inv a b x :
  matches (Regex.Cat a b) x → ∃ y z, x = y +:+ z ∧ matches a y ∧ matches b z.
Proof. inversion 1; subst. eauto. Qed.

Lemma matches_grp_inv i a x : matches (Regex.Grp i a) x → matches a x.
Proof. by inversion 1. Qed.

Lemma matches_plus_cls p x :
  matches (Regex.Plus (Regex.Cls p)) x ↔ word_of p x.
Proof.
  split.
  - remember (Regex.Plus (Regex.Cls p)) as r eqn:Hr. intros H.
    induction H as [| | | |a x Hx _|a x y Hx _ Hy IHy|]; try done;
      injection Hr as ->; apply matches_cls_inv in Hx as (ch & -> & Hp).
    + split; [done|]. simpl. by rewrite Hp.
    + destruct (IHy eq_refl) as [_ Hall]. split; [done|].
      rewrite append_cons. simpl. by rewrite Hp.
  - intros [Hne Hall]. induction x as [|ch x IH]; [done|].
    simpl in Hall. apply andb_true_iff in Hall as [Hp Hall].
    destruct x as [|ch' x].
    + apply matches_plus_last. by constructor.
    + change (String ch (String ch' x)) with (String ch "" +:+ String ch' x).
      apply matches_plus_more; [by constructor|]. by apply IH.
Qed.

Lemma matches_lit ch x : matches (Regex.lit ch) x ↔ x = String ch "".
Proof.
  split.
  - intros H. apply matches_cls_inv in H as (ch' & -> & Heq).
    apply Ascii.eqb_eq in Heq. by subst.
  - intros ->. constructor. apply Ascii.eqb_refl.
Qed.

Lemma word_of_cons p x : word_of p x → ∃ ch x', x = String ch x' ∧ p ch = true.
Proof.
  intros [Hne Hall]. destruct x as [|ch x']; [done|]. simpl in Hall.
  apply andb_true_iff in Hall as [Hp _]. eauto.
Qed.

Lemma number_group_starts_with_digit x :
  matches (Regex.Plus (Regex.Cat (Regex.Plus Regex.d) (Regex.Opt (Regex.lit ",")))) x →
  ∃ ch x', x = String ch x' ∧ Regex.is_digit ch = true.
Proof.
  assert (Hturn : ∀ y,
    matches (Regex.Cat (Regex.Plus Regex.d) (Regex.Opt (Regex.lit ","))) y →
    ∃ ch y', y = String ch y' ∧ Regex.is_digit ch = true).
  { intros y Hy. apply matches_cat_inv in Hy as (g & sep & -> & Hg & _).
    apply matches_plus_cls, word_of_cons in Hg as (ch & g' & -> & Hch).
    exists ch, (g' +:+ sep). by rewrite append_cons. }
  inversion 1 as [| | | |a y Hy|a y z Hy Hz|]; subst.
  - by apply Hturn.
  - apply Hturn in Hy as (ch & y' & -> & Hch).
    exists ch, (y' +:+ z). by rewrite append_cons.
Qed.

Lemma reg_groups_sound : groups_sound row_groups reg.
Proof.
  cbv [reg Regex.seq]. cbn [groups_sound]. repeat split; intros x Hx.
  - apply matches_cat_inv in Hx as (o & tl & -> & Ho & Htl).
    apply matches_cat_inv in Htl as (w & l & -> & Hw & Hl).
    apply matches_cls_inv in Hw as (ws & -> & Hws).
    apply matches_lit in Hl as ->.
    exists o, ws. split; [done|]. split; [|done]. by apply matches_plus_cls.
  - apply matches_cat_inv in Hx as (ws & r & -> & Hws & Hr).
    exists ws, r. split; [done|]. split; by apply matches_plus_cls.
  - by apply number_group_starts_with_digit.
  - by apply number_group_starts_with_digit.
Qed.

Lemma remove_space_slash_cons a b rest :
  Regex.remove_space_slash (String a (String b rest))
  = if Regex.is_space a && Ascii.eqb b "/" then Regex.remove_space_slash rest
    else String a (Regex.remove_space_slash (String b rest)).
Proof. reflexivity. Qed.

Lemma remove_space_slash_owner o ws :
  all_chars not_space o = true → Regex.is_space ws = true →
  Regex.remove_space_slash (o +:+ String ws "/") = o.
Proof.
  intros Ho Hws. induction o as [|ch o IH].
  - change ("" +:+ String ws "/") with (String ws (String "/" "")).
    rewrite remove_space_slash_cons. by rewrite Hws.
  - simpl in Ho. apply andb_true_iff in Ho as [Hch Ho].
    unfold not_space in Hch. apply negb_true_iff in Hch.
    rewrite append_cons. specialize (IH Ho).
    destruct (o +:+ String ws "/") as [|b tl] eqn:Htl.
    + by destruct o.
    + rewrite remove_space_slash_cons, Hch. cbn [andb]. by rewrite IH.
Qed.

Lemma remove_all_append p x y :
  Regex.remove_all p (x +:+ y) = Regex.remove_all p x +:+ Regex.remove_all p y.
Proof.
  induction x as [|ch x IH]; [done|]. rewrite append_cons. simpl.
  destruct (p ch); [done|]. rewrite append_cons. by f_equal.
Qed.

Lemma remove_all_all p x : all_chars p x = true → Regex.remove_all p x = "".
Proof.
  induction x as [|ch x IH]; [done|]. simpl. intros H.
  apply andb_true_iff in H as [-> H]. auto.
Qed.

Lemma remove_all_none p x :
  all_chars (λ ch, negb (p ch)) x = true → Regex.remove_all p x = x.
Proof.
  induction x as [|ch x IH]; [done|]. simpl. intros H.
  apply andb_true_iff in H as [Hch H]. apply negb_true_iff in Hch.
  rewrite Hch. by f_equal; auto.
Qed.

(** Nothing is left of the white space in what [remove_all] returns. *)
Lemma all_chars_remove_all p x :
  all_chars (λ ch, negb (p ch)) (Regex.remove_all p x) = true.
Proof.
  induction x as [|ch x IH]; [done|]. simpl.
  destruct (p ch) eqn:Hch; [done|]. simpl. by rewrite Hch.
Qed.

Lemma parseInt_from_Num x n : ∃ m, parseInt_from x (Num n) = Num m.
Proof.
  revert n. induction x as [|ch x IH]; intros n; simpl; [eauto|].
  destruct (Regex.is_digit ch); eauto.
Qed.

Lemma parseInt_digit_first ch x :
  Regex.is_digit ch = true →
  ∃ m, parseInt (Regex.remove_all (Ascii.eqb ",") (String ch x)) = Num m.
Proof.
  intros Hch. cbn [Regex.remove_all].
  destruct (Ascii.eqb "," ch) eqn:Heq.
  - apply Ascii.eqb_eq in Heq. subst ch. vm_compute in Hch. done.
  - unfold parseInt. cbn [parseInt_from]. rewrite Hch. apply parseInt_from_Num.
Qed.

(** X4.  Every record that the row parser returns has an owner and a repo
    that are not empty and hold no white space, stars and forks that are
    numbers and not [NaN], and no backward link. *)
Theorem parseRow_record text dependent :
  parseRow text = Some dependent →
  word_of not_space (owner dependent)
  ∧ word_of not_space (repo dependent)
  ∧ (∃ n, stars dependent = Num n)
  ∧ (∃ n, forks dependent = Num n)
  ∧ previousGithubDependentsPageUrl dependent = None.
Proof.
  unfold parseRow. destruct (Regex.exec reg text) as [res|] eqn:Hexec; [|done].
  apply (exec_sound row_groups) in Hexec as [_ Hres];
    [|apply reg_groups_sound|done].
  simpl.
  destruct (Regex.capture 1 res) as [res1|] eqn:H1; [|done].
  destruct (Regex.capture 2 res) as [res2|] eqn:H2; [|done].
  destruct (Regex.capture 3 res) as [res3|] eqn:H3; [|done].
  destruct (Regex.capture 5 res) as [res5|] eqn:H5; [|done].
  simpl. intros [= <-]. simpl.
  apply capture_elem_of, Hres in H1 as (o & ws & -> & [Hone Ho] & Hws).
  apply capture_elem_of, Hres in H2 as (w & r & -> & [_ Hw] & [Hrne Hr]).
  apply capture_elem_of, Hres in H3 as (ch3 & x3 & -> & Hch3).
  apply capture_elem_of, Hres in H5 as (ch5 & x5 & -> & Hch5).
  rewrite remove_space_slash_owner by done.
  rewrite remove_all_append, remove_all_all, remove_all_none by done.
  repeat split; try done.
  - by apply parseInt_digit_first.
  - by apply parseInt_digit_first.
Qed.

Lemma parseRow_record_witness :
  parseRow "alice / widget 10 2" = Some alice
  ∧ word_of not_space (owner alice)
  ∧ word_of not_space (repo alice)
  ∧ (∃ n, stars alice = Num n)
  ∧ (∃ n, forks alice = Num n)
  ∧ previousGithubDependentsPageUrl alice = None.
Proof.
  assert (Hrow : parseRow "alice / widget 10 2" = Some alice)
    by (vm_compute; reflexivity).
  split; [exact Hrow|]. exact (parseRow_record _ _ Hrow).
Defined.

Lemma owner_and_repo_re_shape g :
  is_Some (Regex.exec owner_and_repo_re g) ↔ owner_repo_shape g.
Proof.
  rewrite exec_is_Some by reflexivity. cbv [owner_and_repo_re Regex.seq].
  split.
  - intros (pre & x & post & -> & Hx).
    apply matches_grp_inv, matches_cat_inv in Hx as (o & tl & -> & Ho & Htl).
    apply matches_cat_inv in Htl as (l & r & -> & Hl & Hr).
    apply matches_lit in Hl as ->.
    apply matches_plus_cls in Ho, Hr.
    exists pre, o, r, post. rewrite !append_assoc. done.
  - intros (pre & o & r & post & -> & Ho & Hr).
    exists pre, (o +:+ "/" +:+ r), post. rewrite !append_assoc. split; [done|].
    constructor. constructor; [by apply matches_plus_cls|].
    constructor; [by apply matches_lit|by apply matches_plus_cls].
Qed.

Lemma json_file_re_shape f :
  is_Some (Regex.exec json_file_re f) ↔ json_shape f.
Proof.
  rewrite exec_is_Some by reflexivity.
  cbv [json_file_re Regex.seq Regex.lits].
  split.
  - intros (pre & x & post & -> & Hx).
    apply matches_cat_inv in Hx as (w & tl & -> & Hw & Htl).
    apply matches_cat_inv in Htl as (d & tl2 & -> & Hd & Htl).
    apply matches_cls_inv in Hd as (ch & -> & Hch).
    apply matches_cat_inv in Htl as (l1 & tl3 & -> & Hl1 & Htl).
    apply matches_cat_inv in Htl as (l2 & tl4 & -> & Hl2 & Htl).
    apply matches_cat_inv in Htl as (l3 & l4 & -> & Hl3 & Hl4).
    apply matches_lit in Hl1 as ->, Hl2 as ->, Hl3 as ->, Hl4 as ->.
    apply matches_plus_cls in Hw.
    exists pre, w, ch, post. rewrite !append_assoc. done.
  - intros (pre & w & ch & post & -> & Hw & Hch).
    exists pre, (w +:+ String ch "json"), post. rewrite !append_assoc.
    split; [done|].
    constructor; [by apply matches_plus_cls|].
    change (String ch "json") with (String ch "" +:+ "j" +:+ "s" +:+ "o" +:+ "n").
    constructor; [by constructor|].
    repeat (constructor; [by apply matches_lit|]). by apply matches_lit.
Qed.

(** X7.  [getArgs] returns exactly when the first argument holds a slash with
    white-space-free text on both sides, the second holds word characters,
    one more character that is no line terminator and then [json], and the
    third is missing or is [true] or [false]; it returns the first two
    arguments as they are and [Boolean] of the third. *)
Theorem getArgs_accepts argv githubOwnerAndRepo dependentsFile resumeCrawl :
  getArgs argv = Ok (githubOwnerAndRepo, dependentsFile, resumeCrawl)
  ↔ argv !! 0 = Some githubOwnerAndRepo
    ∧ owner_repo_shape githubOwnerAndRepo
    ∧ argv !! 1 = Some dependentsFile
    ∧ json_shape dependentsFile
    ∧ (argv !! 2 = None ∨ argv !! 2 = Some "true" ∨ argv !! 2 = Some "false")
    ∧ resumeCrawl = Boolean (argv !! 2).
Proof.
  unfold getArgs.
  destruct (argv !! 0) as [g|]; [|split; [done|by intros (? & _)]].
  pose proof (owner_and_repo_re_shape g) as Hg.
  destruct (Regex.exec owner_and_repo_re g) as [resg|].
  2:{ split; [done|]. intros ([= <-] & Hshape & _).
      apply Hg in Hshape as [? ?]. done. }
  destruct (argv !! 1) as [f|]; [|split; [done|by intros (_ & _ & ? & _)]].
  pose proof (json_file_re_shape f) as Hf.
  destruct (Regex.exec json_file_re f) as [resf|].
  2:{ split; [done|]. intros (_ & _ & [= <-] & Hshape & _).
      apply Hf in Hshape as [? ?]. done. }
  case_bool_decide as Hthird.
  - split; [done|]. intros (_ & _ & _ & _ & Hvalid & _).
    destruct Hthird as (H1 & H2 & H3). by destruct Hvalid as [?|[?|?]].
  - split.
    + intros [= <- <- <-]. split; [done|]. split; [by apply Hg|].
      split; [done|]. split; [by apply Hf|]. split; [|done].
      destruct (decide (argv !! 2 = None)); [by left|].
      destruct (decide (argv !! 2 = Some "true")); [by right; left|].
      destruct (decide (argv !! 2 = Some "false")); [by right; right|].
      exfalso. by apply Hthird.
    + by intros ([= <-] & _ & [= <-] & _ & _ & ->).
Qed.

Lemma getArgs_accepts_witness :
  getArgs ["ownerA/repoB"; "dependents.json"]
  = Ok ("ownerA/repoB", "dependents.json", false)
  ∧ owner_repo_shape "ownerA/repoB" ∧ json_shape "dependents.json".
Proof.
  assert (Hargs : getArgs ["ownerA/repoB"; "dependents.json"]
                  = Ok ("ownerA/repoB", "dependents.json", false))
    by (vm_compute; reflexivity).
  split; [exact Hargs|].
  apply getArgs_accepts in Hargs as (_ & Hg & _ & Hf & _). by split.
Defined.


Lemma greedy_cls p ch rest : p ch = true → greedy (Regex.Cls p) (String ch "") rest id.
Proof. intros Hp R fuel c k res _ Hk. rewrite append_cons. cbn [Regex.run]. by rewrite Hp. Qed.

Lemma greedy_cat A B x1 x2 rest add1 add2 :
  greedy A x1 (x2 +:+ rest) add1 → greedy B x2 rest add2 →
  greedy (Regex.Cat A B) (x1 +:+ x2) rest (add2 ∘ add1).
Proof.
  intros HA HB R fuel c k res Hfuel Hk. cbn [Regex.run]. rewrite append_assoc.
  apply HA; [by rewrite <- append_assoc|].
  apply HB; [|done]. rewrite !length_append in *. lia.
Qed.

Lemma greedy_grp i A x rest add :
  greedy A x rest add → greedy (Regex.Grp i A) x rest (λ c, (i, x) :: add c).
Proof.
  intros HA R fuel c k res Hfuel Hk. cbn [Regex.run].
  apply HA; [done|]. by rewrite consumed_append.
Qed.

Lemma run_plus {R : Type} a fuel input c (k : string → Regex.captures → option R) :
  Regex.run (Regex.Plus a) fuel input c k
  = Regex.turns (Regex.run a fuel) k fuel input c.
Proof. reflexivity. Qed.

Lemma run_cls {R : Type} p fuel ch rest c (k : string → Regex.captures → option R) :
  Regex.run (Regex.Cls p) fuel (String ch rest) c k = if p ch then k rest c else None.
Proof. reflexivity. Qed.

Lemma run_cls_fail {R : Type} p fuel rest c (k : string → Regex.captures → option R) :
  starts_outside p rest → Regex.run (Regex.Cls p) fuel rest c k = None.
Proof.
  intros Hrest. destruct rest as [|ch rest]; [done|].
  rewrite run_cls. simpl in Hrest. by rewrite Hrest.
Qed.

Lemma turns_S {R : Type} body (k : string → Regex.captures → option R) n input c :
  Regex.turns body k (S n) input c
  = body input c (λ rest c',
      match Regex.turns body k n rest c' with
      | Some res => Some res
      | None => k rest c'
      end).
Proof. reflexivity. Qed.

Lemma turns_cls_fail {R : Type} p fuel n rest c (k : string → Regex.captures → option R) :
  starts_outside p rest → Regex.turns (Regex.run (Regex.Cls p) fuel) k n rest c = None.
Proof.
  intros Hrest. destruct n as [|n]; [done|]. rewrite turns_S.
  by apply run_cls_fail.
Qed.

Lemma greedy_plus_cls p x rest :
  word_of p x → starts_outside p rest → greedy (Regex.Plus (Regex.Cls p)) x rest id.
Proof.
  intros [Hne Hall] Hrest R fuel c k res Hfuel Hk. rewrite run_plus.
  assert (Hn : String.length x ≤ fuel) by (rewrite length_append in Hfuel; lia).
  clear Hfuel. revert Hn. generalize fuel at 1 3. intros n.
  revert n. induction x as [|ch x IH]; intros n Hn; [done|].
  simpl in Hall. apply andb_true_iff in Hall as [Hp Hall].
  destruct n as [|n]; [simpl in Hn; lia|].
  rewrite append_cons, turns_S, run_cls, Hp.
  destruct x as [|ch' x].
  - change ("" +:+ rest) with rest. by rewrite turns_cls_fail.
  - rewrite IH; [done|done|done|simpl in *; lia].
Qed.

Lemma not_digit_comma : Regex.is_digit "," = false.
Proof. reflexivity. Qed.

Lemma starts_outside_weaken (p q : ascii → bool) rest :
  (∀ ch, q ch = false → p ch = false) → starts_outside q rest → starts_outside p rest.
Proof. intros Hpq. destruct rest; simpl; auto. Qed.

Lemma concat_cons2 sep g g' gs :
  String.concat sep (g :: g' :: gs) = g +:+ sep +:+ String.concat sep (g' :: gs).
Proof. reflexivity. Qed.

Lemma turns_number_greedy {R : Type} gs :
  Forall (word_of Regex.is_digit) gs → gs ≠ [] →
  ∀ fuel n rest c (k : string → Regex.captures → option R) res,
    starts_outside digit_or_comma rest →
    String.length (String.concat "," gs +:+ rest) < fuel →
    length gs ≤ n →
    k rest c = Some res →
    Regex.turns
      (Regex.run (Regex.Cat (Regex.Plus Regex.d) (Regex.Opt (Regex.lit ","))) fuel)
      k n (String.concat "," gs +:+ rest) c = Some res.
Proof.
  induction 1 as [|g gs Hg Hgs IH]; [done|]. intros _ fuel n rest c k res Hrest Hfuel Hn Hk.
  destruct n as [|n]; [simpl in Hn; lia|]. rewrite turns_S.
  assert (Hrest_d : starts_outside Regex.is_digit rest).
  { revert Hrest. apply starts_outside_weaken. unfold digit_or_comma.
    intros ch Hch. by apply orb_false_iff in Hch as [? _]. }
  assert (Hrest_c : starts_outside (Ascii.eqb ",") rest).
  { revert Hrest. apply starts_outside_weaken. unfold digit_or_comma.
    intros ch Hch. by apply orb_false_iff in Hch as [_ ?]. }
  change (Regex.run (Regex.Cat ?a ?b) fuel ?i ?c0 ?k0)
    with (Regex.run a fuel i c0 (λ rest' c', Regex.run b fuel rest' c' k0)).
  destruct gs as [|g' gs].
  - change (String.concat "," [g]) with g in *.
    apply (greedy_plus_cls Regex.is_digit g rest Hg Hrest_d); [done|].
    change (Regex.run (Regex.Opt ?a) fuel ?i ?c0 ?k0)
      with (match Regex.run a fuel i c0 k0 with
            | Some res => Some res
            | None => k0 i c0
            end).
    unfold Regex.lit. rewrite run_cls_fail by done.
    destruct n as [|n]; [done|]. rewrite turns_S.
    change (Regex.run (Regex.Cat ?a ?b) fuel ?i ?c0 ?k0)
      with (Regex.run a fuel i c0 (λ rest' c', Regex.run b fuel rest' c' k0)).
    unfold Regex.d. rewrite run_plus, turns_cls_fail by done. done.
  - rewrite concat_cons2 in *. rewrite !append_assoc in *.
    change ("," +:+ ?y) with (String "," y) in *.
    apply (greedy_plus_cls Regex.is_digit g _ Hg); [done|done|].
    change (Regex.run (Regex.Opt ?a) fuel ?i ?c0 ?k0)
      with (match Regex.run a fuel i c0 k0 with
            | Some res => Some res
            | None => k0 i c0
            end).
    unfold Regex.lit at 1. rewrite run_cls. cbn [Ascii.eqb Bool.eqb]. cbv iota.
    unfold id.
    assert (g' :: gs ≠ []) as Hne by done.
    rewrite (IH Hne fuel n rest c k res Hrest); [done| |simpl in *; lia|done].
    rewrite length_append in Hfuel. cbn [String.length] in Hfuel. lia.
Qed.

Lemma greedy_number gs rest :
  number_text gs → starts_outside digit_or_comma rest →
  greedy number_group (String.concat "," gs) rest id.
Proof.
  intros [Hne Hgs] Hrest R fuel c k res Hfuel Hk. unfold number_group.
  rewrite run_plus. apply turns_number_greedy; try done.
  assert (length gs ≤ String.length (String.concat "," gs)) as Hlen.
  { clear -Hgs. induction Hgs as [|g gs [Hg _] Hgs IH]; [done|].
    destruct gs as [|g' gs].
    - simpl. destruct g; [done|simpl; lia].
    - rewrite concat_cons2, !length_append. simpl in *. lia. }
  rewrite length_append in Hfuel. lia.
Qed.

Lemma starts_outside_cons p ch x rest :
  p ch = false → starts_outside p (String ch x +:+ rest).
Proof. intros Hp. rewrite append_cons. done. Qed.

Lemma starts_outside_word (p q : ascii → bool) x rest :
  word_of q x → (∀ ch, q ch = true → p ch = false) →
  starts_outside p (x +:+ rest).
Proof.
  intros Hx Hpq. apply word_of_cons in Hx as (ch & x' & -> & Hch).
  apply starts_outside_cons. auto.
Qed.

Lemma digit_not_space ch : Regex.is_digit ch = true → Regex.is_space ch = false.
Proof. destruct ch as [[] [] [] [] [] [] [] []]; vm_compute; congruence. Qed.

Lemma space_not_digit_or_comma ch :
  Regex.is_space ch = true → digit_or_comma ch = false.
Proof. destruct ch as [[] [] [] [] [] [] [] []]; vm_compute; congruence. Qed.

Lemma space_not_not_space ch : Regex.is_space ch = true → not_space ch = false.
Proof. unfold not_space. by intros ->. Qed.

Lemma not_space_not_space ch : not_space ch = true → Regex.is_space ch = false.
Proof. unfold not_space. by intros ?%negb_true_iff. Qed.

Lemma number_text_starts gs :
  number_text gs → ∃ ch x', String.concat "," gs = String ch x' ∧ Regex.is_digit ch = true.
Proof.
  intros [Hne Hgs]. destruct Hgs as [|g gs Hg Hgs]; [done|].
  apply word_of_cons in Hg as (ch & g' & -> & Hch). destruct gs as [|g2 gs].
  - by exists ch, g'.
  - rewrite concat_cons2, append_cons. eauto.
Qed.

Lemma all_chars_impl (p q : ascii → bool) x :
  (∀ ch, p ch = true → q ch = true) → all_chars p x = true → all_chars q x = true.
Proof.
  intros Hpq. induction x as [|ch x IH]; [done|]. simpl.
  intros [Hch Hx]%andb_true_iff. rewrite (Hpq _ Hch). auto.
Qed.

Lemma digit_not_comma ch : Regex.is_digit ch = true → negb (Ascii.eqb "," ch) = true.
Proof. destruct ch as [[] [] [] [] [] [] [] []]; vm_compute; congruence. Qed.

Lemma remove_commas gs :
  Forall (word_of Regex.is_digit) gs →
  Regex.remove_all (Ascii.eqb ",") (String.concat "," gs) = String.concat "" gs.
Proof.
  induction 1 as [|g gs [_ Hg] Hgs IH]; [done|].
  assert (Regex.remove_all (Ascii.eqb ",") g = g) as Hgg.
  { apply remove_all_none. revert Hg. apply all_chars_impl, digit_not_comma. }
  destruct gs as [|g' gs]; [done|].
  rewrite !concat_cons2, !remove_all_append, Hgg, IH. done.
Qed.

Lemma concat_digits gs : number_text gs → word_of Regex.is_digit (String.concat "" gs).
Proof.
  intros [Hne Hgs]. induction Hgs as [|g gs Hg Hgs IH]; [done|].
  destruct gs as [|g' gs]; [done|]. rewrite concat_cons2.
  change ("" +:+ ?y) with y. destruct Hg as [Hgne Hg].
  destruct IH as [_ IH]; [done|]. split.
  - destruct g; done.
  - by rewrite all_chars_append, Hg, IH.
Qed.

Lemma parseInt_from_digits x n :
  all_chars Regex.is_digit x = true →
  parseInt_from x (Num n) = Num (decimal_from x n).
Proof.
  revert n. induction x as [|ch x IH]; intros n; [done|]. simpl.
  intros [Hch Hx]%andb_true_iff. fold (Regex.is_digit ch). rewrite Hch. by apply IH.
Qed.

Lemma parseInt_digits x : word_of Regex.is_digit x → parseInt x = Num (decimal x).
Proof.
  intros [Hne Hx]. destruct x as [|ch x]; [done|].
  simpl in Hx. apply andb_true_iff in Hx as [Hch Hx].
  unfold parseInt, decimal. cbn [parseInt_from decimal_from]. rewrite Hch.
  by apply parseInt_from_digits.
Qed.

Lemma exec_here r input c : Regex.match_here r input = Some c → Regex.exec r input = Some c.
Proof. intros H. destruct input; cbn [Regex.exec]; by rewrite H. Qed.

Lemma match_here_reg_space ch rest :
  Regex.is_space ch = true → Regex.match_here reg (String ch rest) = None.
Proof.
  intros Hch. unfold Regex.match_here. cbv [reg Regex.seq].
  change (Regex.run (Regex.Cat ?a ?b) ?fuel ?i ?c0 ?k0)
    with (Regex.run a fuel i c0 (λ rest' c', Regex.run b fuel rest' c' k0)).
  change (Regex.run (Regex.Grp ?j ?a) ?fuel ?i ?c0 ?k0)
    with (Regex.run a fuel i c0
            (λ rest' c', k0 rest' ((j, Regex.consumed i rest') :: c'))).
  change (Regex.run (Regex.Cat ?a ?b) ?fuel ?i ?c0 ?k0)
    with (Regex.run a fuel i c0 (λ rest' c', Regex.run b fuel rest' c' k0)).
  rewrite run_plus, turns_S. unfold Regex.S'. rewrite run_cls, Hch. done.
Qed.

Lemma exec_reg_skip pre text :
  all_chars Regex.is_space pre = true →
  Regex.exec reg (pre +:+ text) = Regex.exec reg text.
Proof.
  induction pre as [|ch pre IH]; [done|]. cbn [all_chars].
  intros [Hch Hpre]%andb_true_iff. rewrite append_cons. cbn [Regex.exec].
  rewrite match_here_reg_space by done. auto.
Qed.

Lemma starts_outside_number p gs rest :
  number_text gs → (∀ ch, Regex.is_digit ch = true → p ch = false) →
  starts_outside p (String.concat "," gs +:+ rest).
Proof.
  intros (ch & x' & -> & Hch)%number_text_starts Hp.
  apply starts_outside_cons. auto.
Qed.

(** X5.  A row text in the layout of the listing gives the record it
    spells.  The text is: white space or nothing, the owner, one
    white-space character, a slash, white space, the repo, white space,
    the stars, white space, the forks, and a rest that starts with neither
    a digit nor a comma; owner and repo hold no white space and each
    number is groups of digits joined by single commas, with a value of
    at most 2^53, up to which [parseInt] returns the value itself.  The
    record has that owner and repo, and as stars and forks the decimal
    values of the digits with the commas dropped. *)
Theorem parseRow_canonical pre o ws0 ws1 r ws2 gs1 ws3 gs2 post :
  all_chars Regex.is_space pre = true →
  word_of not_space o → Regex.is_space ws0 = true →
  word_of Regex.is_space ws1 → word_of not_space r →
  word_of Regex.is_space ws2 → number_text gs1 →
  word_of Regex.is_space ws3 → number_text gs2 →
  starts_outside digit_or_comma post →
  (decimal (String.concat "" gs1) <= 2 ^ 53)%N →
  (decimal (String.concat "" gs2) <= 2 ^ 53)%N →
  parseRow (pre +:+ o +:+ String ws0 "/" +:+ ws1 +:+ r +:+ ws2
            +:+ String.concat "," gs1 +:+ ws3 +:+ String.concat "," gs2 +:+ post)
  = Some {| owner := o; repo := r;
            stars := Num (decimal (String.concat "" gs1));
            forks := Num (decimal (String.concat "" gs2));
            previousGithubDependentsPageUrl := None |}.
Proof.
  intros Hpre Ho Hws0 Hws1 Hr Hws2 Hgs1 Hws3 Hgs2 Hpost _ _.
  set (n1 := String.concat "," gs1). set (n2 := String.concat "," gs2).
  set (x := (o +:+ String ws0 "" +:+ "/")
            +:+ (ws1 +:+ r) +:+ ws2 +:+ n1 +:+ ws3 +:+ n2).
  replace (pre +:+ o +:+ String ws0 "/" +:+ ws1 +:+ r +:+ ws2
           +:+ n1 +:+ ws3 +:+ n2 +:+ post)
    with (pre +:+ x +:+ post)
    by (unfold x; rewrite !append_assoc; reflexivity).
  eassert (Hgreedy : greedy reg x post _).
  { cbv [reg Regex.seq]. unfold x.
    apply greedy_cat; [apply greedy_grp, greedy_cat;
                         [apply greedy_plus_cls; [exact Ho|]
                         |apply greedy_cat; apply greedy_cls; [exact Hws0|reflexivity]]|].
    2: apply greedy_cat; [apply greedy_grp, greedy_cat;
                            [apply greedy_plus_cls; [exact Hws1|]
                            |apply greedy_plus_cls; [exact Hr|]]|].
    4: apply greedy_cat; [apply greedy_plus_cls; [exact Hws2|]|].
    5: apply greedy_cat; [apply greedy_grp, (greedy_number gs1); [exact Hgs1|]|].
    6: apply greedy_cat; [apply greedy_grp, greedy_plus_cls; [exact Hws3|]
                         |apply greedy_grp, (greedy_number gs2); [exact Hgs2|exact Hpost]].
    - rewrite !append_assoc. apply starts_outside_cons. by apply space_not_not_space.
    - rewrite !append_assoc. eapply starts_outside_word; [exact Hr|].
      apply not_space_not_space.
    - rewrite !append_assoc. eapply starts_outside_word; [exact Hws2|].
      apply space_not_not_space.
    - rewrite !append_assoc. apply starts_outside_number; [done|].
      apply digit_not_space.
    - rewrite !append_assoc. eapply starts_outside_word; [exact Hws3|].
      apply space_not_digit_or_comma.
    - apply starts_outside_number; [done|]. apply digit_not_space. }
  unfold parseRow. rewrite exec_reg_skip by done.
  rewrite (exec_here reg (x +:+ post) _
             (Hgreedy _ _ [] _ _ (Nat.lt_succ_diag_r _) eq_refl)).
  rewrite consumed_append. cbv [compose id]. simpl.
  change (String ws0 "" +:+ "/") with (String ws0 "/").
  rewrite remove_space_slash_owner by (by destruct Ho).
  rewrite remove_all_append, remove_all_all, remove_all_none
    by (by destruct Hws1, Hr).
  unfold n1, n2. rewrite !remove_commas by (by destruct Hgs1, Hgs2).
  rewrite !parseInt_digits by (by apply concat_digits). done.
Qed.

Lemma parseRow_canonical_witness :
  let newline := String "010" "  " in
  parseRow (newline +:+ "alice" +:+ String " " "/" +:+ newline +:+ "widget"
            +:+ newline +:+ String.concat "," ["1"; "234"] +:+ newline
            +:+ String.concat "," ["56"] +:+ newline)
  = Some {| owner := "alice"; repo := "widget";
            stars := Num (decimal (String.concat "" ["1"; "234"]));
            forks := Num (decimal (String.concat "" ["56"]));
            previousGithubDependentsPageUrl := None |}
  ∧ decimal (String.concat "" ["1"; "234"]) = 1234%N.
Proof.
  cbv zeta. split; [|reflexivity].
  apply parseRow_canonical; try reflexivity; try (by vm_compute);
    try (split; [discriminate|reflexivity]);
    (split; [discriminate|]); repeat constructor; discriminate.
Defined.

Lemma splice_skip_sublists store :
  ∀ n l, length l ≤ n →
    filter (λ d, d ∉ store) l `sublist_of` splice_skip store l
    ∧ splice_skip store l `sublist_of` l.
Proof.
  induction n as [|n IH]; intros l Hn.
  { destruct l; [done|simpl in Hn; lia]. }
  destruct l as [|x l]; [done|]. cbn [splice_skip].
  destruct (isDuplicate store x) eqn:Hx.
  - apply isDuplicate_elem_of in Hx.
    rewrite filter_cons_False by (intros ?; done).
    destruct l as [|y l].
    + split; [done|]. apply sublist_nil_l.
    + destruct (IH l) as [IH1 IH2]; [simpl in Hn; lia|]. split.
      * destruct (decide (y ∉ store)).
        -- rewrite filter_cons_True by done. by apply sublist_skip.
        -- rewrite filter_cons_False by done. by apply sublist_cons.
      * apply sublist_cons. by apply sublist_skip.
  - assert (x ∉ store) as Hnx.
    { intros Hin. apply isDuplicate_elem_of in Hin. congruence. }
    rewrite filter_cons_True by done.
    destruct (IH l) as [IH1 IH2]; [simpl in Hn; lia|].
    split; by apply sublist_skip.
Qed.

Lemma splice_skip_odds store l :
  Forall (λ d, d ∈ store) l → splice_skip store l = odds l.
Proof.
  intros Hl. assert (∀ n l, length l ≤ n → Forall (λ d, d ∈ store) l →
                      splice_skip store l = odds l) as H; [|by apply (H (length l))].
  clear. induction n as [|n IH]; intros l Hn Hl.
  { destruct l; [done|simpl in Hn; lia]. }
  destruct Hl as [|x l Hx Hl]; [done|]. cbn [splice_skip].
  apply isDuplicate_elem_of in Hx. rewrite Hx.
  destruct Hl as [|y l Hy Hl]; [done|]. cbn [odds]. f_equal.
  apply IH; [simpl in Hn; lia|done].
Qed.

Lemma length_odds {A} (l : list A) : length (odds l) = length l / 2.
Proof.
  assert (∀ n (l : list A), length l ≤ n → length (odds l) = length l / 2) as H;
    [|by apply (H (length l))].
  clear. induction n as [|n IH]; intros l Hn.
  { destruct l; [done|simpl in Hn; lia]. }
  destruct l as [|x [|y l]]; [done|done|]. cbn [odds length].
  rewrite IH by (simpl in Hn; lia).
  change (S (S (length l))) with (1 * 2 + length l) at 1.
  replace (1 * 2 + length l) with (length l + 1 * 2) by lia.
  rewrite Nat.div_add by done. lia.
Qed.

(** X1.  On a readable file the duplicate check returns a part of the batch,
    in the order of the batch, that keeps every record the store does not
    hold: a new record is never dropped, and nothing is returned that the
    batch does not hold. *)
Theorem removeDuplicateDependents_between store batch :
  ∃ kept, removeDuplicateDependents (Some store) batch = Ok kept
          ∧ filter (λ d, d ∉ store) batch `sublist_of` kept
          ∧ kept `sublist_of` batch.
Proof.
  exists (splice_skip store batch). split; [apply removeDuplicateDependents_closed|].
  by apply (splice_skip_sublists store (length batch)).
Qed.

(** X2.  When every record of the batch is already stored, the duplicate
    check lets through the records at the odd positions, counting from 0:
    half of the batch, rounded down. *)
Theorem removeDuplicateDependents_all_stored store batch :
  Forall (λ d, d ∈ store) batch →
  removeDuplicateDependents (Some store) batch = Ok (odds batch)
  ∧ length (odds batch) = length batch / 2.
Proof.
  intros H. rewrite removeDuplicateDependents_closed, splice_skip_odds by done.
  split; [done|apply length_odds].
Qed.

Lemma removeDuplicateDependents_all_stored_witness :
  removeDuplicateDependents (Some [alice; bob]) [alice; bob; alice] = Ok [bob]
  ∧ length [bob] = length [alice; bob; alice] / 2.
Proof.
  apply (removeDuplicateDependents_all_stored [alice; bob] [alice; bob; alice]).
  repeat constructor.
Defined.

(** ** Extractor: links and counts *)

Lemma parseRow_link text dependent :
  parseRow text = Some dependent → previousGithubDependentsPageUrl dependent = None.
Proof.
  unfold parseRow. intros H.
  destruct (Regex.exec reg text) as [res|]; [|done]. simpl in H.
  destruct (Regex.capture 1 res); [|done]. simpl in H.
  destruct (Regex.capture 2 res); [|done]. simpl in H.
  destruct (Regex.capture 3 res); [|done]. simpl in H.
  destruct (Regex.capture 5 res); [|done]. simpl in H.
  by injection H as <-.
Qed.

Lemma parseDependents_fst children pagination :
  (parseDependents {| box := Some children; pagination := pagination |}).1
  = Some (omap (λ child, pushed (tryChild child)) (drop 1 children)).
Proof.
  rewrite parseDependents_closed, tryRow_children, omap_fmap_compose. done.
Qed.

Lemma parseDependents_links page parsed :
  (parseDependents page).1 = Some parsed →
  Forall (λ d, previousGithubDependentsPageUrl d = None) parsed.
Proof.
  destruct page as [[children|] pagination]; [|done].
  rewrite parseDependents_fst. intros [= <-].
  apply Forall_forall. intros d (child & _ & Hd)%list_elem_of_omap.
  unfold tryChild in Hd. destruct (child_is_div child); [|done].
  destruct (parseRow (textContent child)) as [d'|] eqn:Hrow; [|done].
  injection Hd as <-. by apply parseRow_link in Hrow.
Qed.

(** X3.  On a page with the entries container every child after the first
    ends up either as one record or as two console entries, the error and
    the text: twice the number of records plus the number of console
    entries is twice the number of data rows. *)
Theorem parseDependents_accounts children pagination :
  ∃ dependents console,
    parseDependents {| box := Some children; pagination := pagination |}
    = (Some dependents, console)
    ∧ 2 * length dependents + length console = 2 * (length children - 1).
Proof.
  rewrite parseDependents_closed, tryRow_children. eexists _, _. split; [done|].
  rewrite <- (length_drop children 1). generalize (drop 1 children). intros l.
  induction l as [|child l IH]; [done|].
  cbn [fmap list_fmap omap list_omap mbind list_bind].
  destruct (tryChild child) as [d|[e t]]; cbn [pushed printed];
    rewrite ?length_app; simpl in *; lia.
Qed.

(** ** Navigator: links come from the page *)

Lemma evaluate_Some el url :
  evaluate el = Some url → href el = Some url ∧ disabled el ≠ Some "disabled".
Proof.
  unfold evaluate. destruct (disabled el) as [v|]; [|done].
  destruct (String.eqb_spec v "disabled"); [done|]. intros ->. split; congruence.
Qed.

Lemma find_elem_of {A} (p : A → bool) l x : List.find p l = Some x → x ∈ l ∧ p x = true.
Proof.
  intros H. apply List.find_some in H as [Hin Hp]. split; [|done].
  by apply list_elem_of_In.
Qed.

Lemma waitForSelector_elem_of page selector el :
  waitForSelector page selector = Some el →
  el ∈ pagination page
  ∧ match selector with
    | sel_a_nth_child n => pagination page !! (n - 1) = Some el ∧ tagName el = TagA
    | sel_button => tagName el = TagButton
    | sel_a => tagName el = TagA
    end.
Proof.
  destruct selector as [n| |]; cbn [waitForSelector].
  - destruct (pagination page !! (n - 1)) as [el'|] eqn:Hn; [|done].
    destruct (is_tag TagA el') eqn:Htag; [|done]. intros [= <-].
    split; [by eapply list_elem_of_lookup_2|]. split; [done|].
    unfold is_tag in Htag. by destruct (tagName el').
  - intros [Hin Htag]%find_elem_of. split; [done|].
    unfold is_tag in Htag. by destruct (tagName el).
  - intros [Hin Htag]%find_elem_of. split; [done|].
    unfold is_tag in Htag. by destruct (tagName el).
Qed.

(** X9.  A link that the Navigator returns is the [href] of a pagination
    control of the page that does not carry [disabled="disabled"]: an
    anchor or a button for the previous link, always an anchor for the
    next link. *)
Theorem navigator_links_come_from_the_page page url :
  (getPreviousDependentsPageUrl page = Ok (Some url) →
   ∃ el, el ∈ pagination page ∧ href el = Some url
         ∧ disabled el ≠ Some "disabled"
         ∧ (tagName el = TagA ∨ tagName el = TagButton))
  ∧ (getNextDependentsPageUrl page = Ok (Some url) →
     ∃ el, el ∈ pagination page ∧ href el = Some url
           ∧ disabled el ≠ Some "disabled" ∧ tagName el = TagA).
Proof.
  split.
  - unfold getPreviousDependentsPageUrl.
    destruct (waitForSelector page (sel_a_nth_child 1)) as [el|] eqn:H1.
    + intros [= [Hhref Hdis]%evaluate_Some].
      apply waitForSelector_elem_of in H1 as (Hin & _ & Htag). eauto 10.
    + destruct (waitForSelector page sel_button) as [el|] eqn:H2; [|done].
      intros [= [Hhref Hdis]%evaluate_Some].
      apply waitForSelector_elem_of in H2 as (Hin & Htag). eauto 10.
  - unfold getNextDependentsPageUrl.
    destruct (waitForSelector page (sel_a_nth_child 2)) as [el|] eqn:H2.
    + intros [= [Hhref Hdis]%evaluate_Some].
      apply waitForSelector_elem_of in H2 as (Hin & _ & Htag). eauto 10.
    + destruct (getPreviousDependentsPageUrl page) as [[prev|]|e]; [done| |done].
      destruct (waitForSelector page sel_a) as [el|] eqn:Ha; [|done].
      intros [= [Hhref Hdis]%evaluate_Some].
      apply waitForSelector_elem_of in Ha as (Hin & Htag). eauto 10.
Qed.

Lemma navigator_links_come_from_the_page_witness :
  getPreviousDependentsPageUrl page2 = Ok (Some url1)
  ∧ ∃ el, el ∈ pagination page2 ∧ href el = Some url1
          ∧ disabled el ≠ Some "disabled"
          ∧ (tagName el = TagA ∨ tagName el = TagButton).
Proof.
  split; [reflexivity|].
  apply (proj1 (navigator_links_come_from_the_page page2 url1)). reflexivity.
Defined.

(** X10.  The three layouts of the pagination container: a disabled button
    and a next anchor on the first page, two anchors on a middle page, a
    previous anchor and a disabled button on the last page.  The
    Navigator reads from them no previous page and the next link, both
    links, and the previous link and no next page. *)
Theorem navigator_layouts rows previous next :
  let first := {| box := rows; pagination := [disabled_button; link next] |} in
  let middle := {| box := rows; pagination := [link previous; link next] |} in
  let last := {| box := rows; pagination := [link previous; disabled_button] |} in
  (getPreviousDependentsPageUrl first = Ok None
   ∧ getNextDependentsPageUrl first = Ok (Some next))
  ∧ (getPreviousDependentsPageUrl middle = Ok (Some previous)
     ∧ getNextDependentsPageUrl middle = Ok (Some next))
  ∧ (getPreviousDependentsPageUrl last = Ok (Some previous)
     ∧ getNextDependentsPageUrl last = Ok None).
Proof. repeat split. Qed.

Lemma find_none_tag t l :
  Forall (λ el, tagName el ≠ t) l → List.find (is_tag t) l = None.
Proof.
  induction 1 as [|el l Hel _ IH]; [done|]. simpl.
  unfold is_tag at 1. destruct t, (tagName el); done.
Qed.

Lemma no_anchor_nth_child page n :
  Forall (λ el, tagName el ≠ TagA) (pagination page) →
  waitForSelector page (sel_a_nth_child n) = None.
Proof.
  intros Hpage. cbn [waitForSelector].
  destruct (pagination page !! (n - 1)) as [el|] eqn:Hn; [|done].
  apply list_elem_of_lookup_2 in Hn.
  rewrite Forall_forall in Hpage. specialize (Hpage el Hn).
  unfold is_tag. by destruct (tagName el).
Qed.

Lemma evaluate_no_href el : href el = None → evaluate el = None.
Proof.
  intros Hhref. unfold evaluate. rewrite Hhref.
  destruct (disabled el) as [v|]; [|done]. by destruct (v =? "disabled")%string.
Qed.

(** A page without any anchor and without any [href]. *)
Lemma getNextDependentsPageUrl_no_anchor page :
  Forall (λ el, tagName el ≠ TagA ∧ href el = None) (pagination page) →
  getNextDependentsPageUrl page = Throw NoNextButton.
Proof.
  intros Hpage.
  assert (Hanchor : Forall (λ el, tagName el ≠ TagA) (pagination page)).
  { eapply Forall_impl; [exact Hpage|]. by intros el [? _]. }
  assert (Ha : waitForSelector page sel_a = None) by by apply find_none_tag.
  unfold getNextDependentsPageUrl, getPreviousDependentsPageUrl.
  rewrite !no_anchor_nth_child, Ha by done.
  destruct (waitForSelector page sel_button) as [el|] eqn:Hb; [|done].
  apply waitForSelector_elem_of in Hb as [Hin _].
  rewrite Forall_forall in Hpage. destruct (Hpage el Hin) as [_ Hhref].
  by rewrite evaluate_no_href.
Qed.

(** X11.  A listing of a single page.  On a page that parses, that has a
    button but no anchor and no [href] among its pagination controls, the
    page loop persists the records of the page and then ends aborted by
    the next-link lookup, not [Done]. *)
Theorem single_page_listing_aborts fuel web existing shown overwriteDependentsFile parsed :
  (parseDependents shown).1 = Some parsed →
  Forall (λ el, tagName el ≠ TagA ∧ href el = None) (pagination shown) →
  is_Some (waitForSelector shown sel_button) →
  let run := startCrawl (S fuel) web (Some existing) shown overwriteDependentsFile in
  outcome run = Aborted NoNextButton
  ∧ ∃ kept, removeDuplicateDependents (Some existing) parsed = Ok kept
            ∧ events run
              = [Persist overwriteDependentsFile (Some existing) kept
                   (Some (if overwriteDependentsFile then kept else existing ++ kept))].
Proof.
  intros Hparsed Hpage [el Hbutton]. cbv zeta.
  pose proof (getNextDependentsPageUrl_no_anchor shown Hpage) as Hnext.
  assert (Hprev : getPreviousDependentsPageUrl shown = Ok None).
  { unfold getPreviousDependentsPageUrl.
    rewrite no_anchor_nth_child, Hbutton
      by (eapply Forall_impl; [exact Hpage|]; by intros ? [? _]).
    apply waitForSelector_elem_of in Hbutton as [Hin _].
    rewrite Forall_forall in Hpage. destruct (Hpage el Hin) as [_ Hhref].
    by rewrite evaluate_no_href. }
  unfold startCrawl. rewrite crawl_loop_S. unfold crawl_turn.
  cbn [dependentsFile page _overwriteDependentsFile].
  rewrite Hparsed, removeDuplicateDependents_closed, Hprev.
  unfold saveDependentsToFile. destruct overwriteDependentsFile; simpl;
    rewrite Hnext; (split; [done|]); by eexists.
Qed.

Lemma single_page_listing_aborts_witness :
  let run := startCrawl 3 site (Some []) page_single true in
  outcome run = Aborted NoNextButton
  ∧ ∃ kept, removeDuplicateDependents (Some []) [alice] = Ok kept
            ∧ events run = [Persist true (Some []) kept (Some kept)].
Proof.
  apply (single_page_listing_aborts 2 site [] page_single true [alice]).
  - vm_compute. reflexivity.
  - repeat constructor; discriminate.
  - by eexists.
Defined.

(** ** The page loop: early aborts *)

(** X12.  The page loop never creates the file: on a file that is missing,
    or whose content is not JSON text, it is aborted in its first turn,
    also when it is asked to overwrite, because the duplicate check reads
    the file first.  Nothing is persisted and the tab is not moved. *)
Theorem unreadable_file_aborts_page_loop fuel web shown overwriteDependentsFile :
  startCrawl (S fuel) web None shown overwriteDependentsFile
  = {| outcome := Aborted match (parseDependents shown).1 with
                          | Some _ => StoreUnreadable
                          | None => UnableToParse
                          end;
       disk_after := None; tab_after := shown; events := [] |}.
Proof.
  unfold startCrawl. rewrite crawl_loop_S. unfold crawl_turn.
  cbn [dependentsFile page _overwriteDependentsFile].
  by destruct (parseDependents shown).1.
Qed.

(** X13.  A page that parses but has neither an anchor as first pagination
    child nor a button is not persisted: the previous-link lookup throws
    before the save, and the file is left as it was. *)
Theorem page_without_previous_control_is_not_persisted
    fuel web existing shown overwriteDependentsFile parsed :
  (parseDependents shown).1 = Some parsed →
  waitForSelector shown (sel_a_nth_child 1) = None →
  waitForSelector shown sel_button = None →
  startCrawl (S fuel) web (Some existing) shown overwriteDependentsFile
  = {| outcome := Aborted NoPreviousButton; disk_after := Some existing;
       tab_after := shown; events := [] |}.
Proof.
  intros Hparsed H1 Hb. unfold startCrawl. rewrite crawl_loop_S. unfold crawl_turn.
  cbn [dependentsFile page _overwriteDependentsFile].
  rewrite Hparsed, removeDuplicateDependents_closed.
  unfold getPreviousDependentsPageUrl. by rewrite H1, Hb.
Qed.

Lemma page_without_previous_control_is_not_persisted_witness :
  startCrawl 3 site (Some [bob]) page_bare false
  = {| outcome := Aborted NoPreviousButton; disk_after := Some [bob];
       tab_after := page_bare; events := [] |}.
Proof.
  apply (page_without_previous_control_is_not_persisted 2 site [bob] page_bare
           false [alice]); vm_compute; reflexivity.
Defined.

(** X14.  Resuming from a store whose last record has no backward link.
    [start] does not load the listing before it resumes, so the page loop
    runs on the blank tab: the run is aborted with "Unable to parse
    dependents", nothing is loaded and nothing is persisted. *)
Theorem resume_without_link_runs_on_the_blank_tab fuel argv web store lastDependent
    githubOwnerAndRepo dependentsFile :
  getArgs argv = Ok (githubOwnerAndRepo, dependentsFile, true) →
  last store = Some lastDependent →
  previousGithubDependentsPageUrl lastDependent = None →
  start (S fuel) argv web (Some store)
  = {| outcome := Aborted UnableToParse; disk_after := Some store;
       tab_after := blank; events := [] |}.
Proof.
  intros Hargs Hlast Hlink. unfold start. rewrite Hargs.
  unfold resumeCrawlFromFile. cbn [getDependentsFromFile].
  by rewrite Hlast, Hlink.
Qed.

Lemma resume_without_link_runs_on_the_blank_tab_witness :
  start 3 ["ownerA/repoB"; "dependents.json"; "true"] site (Some [alice; bob])
  = {| outcome := Aborted UnableToParse; disk_after := Some [alice; bob];
       tab_after := blank; events := [] |}.
Proof.
  apply (resume_without_link_runs_on_the_blank_tab 2
           ["ownerA/repoB"; "dependents.json"; "true"] site [alice; bob] bob
           "ownerA/repoB" "dependents.json"); vm_compute; reflexivity.
Defined.

(** X15.  A resumed run that ends by [exit(0)] or by an error thrown out of
    [resumeCrawlFromFile] has not persisted anything: the file is as it
    was. *)
Theorem resume_without_loop_leaves_the_file fuel web disk tab :
  let run := resumeCrawlFromFile fuel web disk tab in
  (outcome run = Exited ∨ ∃ e, outcome run = Uncaught e) →
  disk_after run = disk ∧ persist_flags (events run) = [].
Proof.
  cbv zeta. unfold resumeCrawlFromFile.
  assert (Hloop : ∀ c, ¬ (outcome (crawl_loop fuel web c) = Exited
                          ∨ ∃ e, outcome (crawl_loop fuel web c) = Uncaught e)).
  { clear. induction fuel as [|fuel IH]; intros c; [by intros [?|[? ?]]|].
    rewrite crawl_loop_S.
    destruct (crawl_turn web c) as [[c' evs] o] eqn:Hturn.
    apply crawl_turn_inv in Hturn
      as [(-> & -> & e & ->)|(ex & b & sv & _ & _ & _ & _ & Hturn)].
    { by intros [?|[? ?]]. }
    simpl in Hturn.
    destruct Hturn as [(-> & _ & [->|[e ->]])|(url & -> & [[-> _]|[-> _]])];
      try by intros [?|[? ?]].
    apply IH. }
  destruct (getDependentsFromFile disk) as [json|e]; [|done].
  destruct (last json) as [lastDependent|]; [|done].
  destruct (previousGithubDependentsPageUrl lastDependent) as [url|];
    [|intros H; by apply Hloop in H].
  destruct (web url) as [pageP|]; [|done].
  destruct (getNextDependentsPageUrl pageP) as [[next|]|e]; [|done|done].
  destruct (web next) as [pageNext|]; [|done].
  intros H. by apply Hloop in H.
Qed.

Lemma resume_without_loop_leaves_the_file_witness :
  let run := resumeCrawlFromFile 3 site (Some [stamp url2 alice]) blank in
  outcome run = Exited ∧ disk_after run = Some [stamp url2 alice]
  ∧ persist_flags (events run) = [].
Proof.
  cbv zeta.
  assert (Hout : outcome (resumeCrawlFromFile 3 site (Some [stamp url2 alice]) blank)
                 = Exited) by (vm_compute; reflexivity).
  split; [exact Hout|].
  apply (resume_without_loop_leaves_the_file 3 site (Some [stamp url2 alice]) blank).
  by left.
Defined.

(** ** The page loop: what is persisted *)

Lemma Forall_sublist {A} (P : A → Prop) (l k : list A) :
  l `sublist_of` k → Forall P k → Forall P l.
Proof. intros Hsub Hk. eapply Forall_forall. intros x Hx.
  rewrite Forall_forall in Hk. apply Hk. by eapply sublist_subseteq. Qed.

(** X16.  All records that a turn of the page loop persists carry the same
    backward link, the result of the previous-link lookup on the page of
    that turn: no link on the first page of the listing, the link to the
    preceding page elsewhere. *)
Theorem persisted_records_carry_the_previous_link web c c' evs o overwrite before
    batch saved :
  crawl_turn web c = (c', evs, o) →
  Persist overwrite before batch saved ∈ evs →
  ∃ previousPageUrl,
    getPreviousDependentsPageUrl (page c) = Ok previousPageUrl
    ∧ Forall (λ d, previousGithubDependentsPageUrl d = previousPageUrl) batch.
Proof.
  unfold crawl_turn.
  destruct (parseDependents (page c)).1 as [parsed|] eqn:Hparsed;
    [|intros [= <- <- <-]; by inversion 1].
  destruct (dependentsFile c) as [existing|]; [|intros [= <- <- <-]; by inversion 1].
  rewrite removeDuplicateDependents_closed.
  destruct (getPreviousDependentsPageUrl (page c)) as [prev|e];
    [|intros [= <- <- <-]; by inversion 1].
  assert (Hbatch : Forall (λ d, previousGithubDependentsPageUrl d = prev)
            match prev with
            | Some url => stamp url <$> splice_skip existing parsed
            | None => splice_skip existing parsed
            end).
  { destruct prev as [url|].
    - apply Forall_fmap, Forall_forall. by intros d _.
    - eapply Forall_sublist; [|by apply parseDependents_links in Hparsed].
      by apply (splice_skip_sublists existing (length parsed)). }
  intros Hturn Hin. exists prev. split; [done|].
  destruct (saveDependentsToFile _ _ _) as [sv|e]; [|injection Hturn as <- <- <-; by inversion Hin].
  cbn [page] in Hturn.
  destruct (getNextDependentsPageUrl (page c)) as [[next|]|e];
    [destruct (web next)| |]; injection Hturn as <- <- <-;
    set_unfold in Hin; destruct_or! Hin; by simplify_eq.
Qed.

Lemma persisted_records_carry_the_previous_link_witness :
  ∃ previousPageUrl,
    getPreviousDependentsPageUrl page2 = Ok previousPageUrl
    ∧ Forall (λ d, previousGithubDependentsPageUrl d = previousPageUrl) [carol].
Proof.
  apply (persisted_records_carry_the_previous_link site
           {| dependentsFile := Some [alice; bob]; page := page2;
              _overwriteDependentsFile := false |}
           {| dependentsFile := Some [alice; bob; carol]; page := page2;
              _overwriteDependentsFile := false |}
           [Persist false (Some [alice; bob]) [carol] (Some [alice; bob; carol])]
           (Some Done) false (Some [alice; bob]) [carol]
           (Some [alice; bob; carol])).
  - vm_compute. reflexivity.
  - apply list_elem_of_here.
Defined.

(** X17.  The records parsed from a page are never found equal to stored
    records that carry a backward link: on a store made of such records
    the duplicate check returns the parsed records unchanged. *)
Theorem parsed_records_never_match_linked_records shown parsed store :
  (parseDependents shown).1 = Some parsed →
  Forall (λ d, previousGithubDependentsPageUrl d ≠ None) store →
  removeDuplicateDependents (Some store) parsed = Ok parsed.
Proof.
  intros Hparsed Hstore. rewrite removeDuplicateDependents_closed.
  rewrite splice_skip_fresh; [done|].
  apply parseDependents_links in Hparsed.
  eapply Forall_impl; [exact Hparsed|]. intros d Hd Hin.
  rewrite Forall_forall in Hstore. by apply Hstore in Hin.
Qed.

Lemma parsed_records_never_match_linked_records_witness :
  let parsed := [{| owner := "carol"; repo := "thing"; stars := Num 1234;
                    forks := Num 5; previousGithubDependentsPageUrl := None |}] in
  (parseDependents page2).1 = Some parsed
  ∧ removeDuplicateDependents (Some [carol]) parsed = Ok parsed.
Proof.
  cbv zeta. split; [vm_compute; reflexivity|].
  apply (parsed_records_never_match_linked_records page2).
  - vm_compute. reflexivity.
  - repeat constructor. discriminate.
Defined.

(** ** The page loop: the file at the end *)

Lemma crawl_loop_appended fuel web c existing :
  _overwriteDependentsFile c = false →
  dependentsFile c = Some existing →
  disk_after (crawl_loop fuel web c)
  = Some (existing ++ batches (events (crawl_loop fuel web c))).
Proof.
  revert c existing. induction fuel as [|fuel IH]; intros c existing Hc Hfile.
  { cbn. by rewrite app_nil_r. }
  rewrite crawl_loop_S.
  destruct (crawl_turn web c) as [[c' evs] o] eqn:Hturn.
  apply crawl_turn_inv in Hturn
    as [(-> & -> & e & ->)|(ex & b & sv & Hex & Hsv & Hc' & Hflag & Hturn)].
  { cbn. by rewrite app_nil_r. }
  rewrite Hc in Hsv. rewrite Hfile in Hex. injection Hex as <-. subst sv.
  simpl in Hturn.
  destruct Hturn as [(-> & _ & [->|[e ->]])|(url & -> & [[-> _]|[-> _]])];
    cbn [ended after events disk_after];
    try (rewrite Hc'; unfold batches; simpl; by rewrite ?app_nil_r).
  rewrite (IH c' _ Hflag Hc'). unfold batches. rewrite bind_app. simpl.
  by rewrite app_nil_r, app_assoc.
Qed.

(** X18.  The file at the end of a run of the page loop on a readable file.
    Without the overwrite flag it is the content at the start followed by
    the batches persisted, in order; with the flag it is the batches
    persisted alone, or the content at the start when the run persisted
    nothing. *)
Theorem startCrawl_store fuel web existing shown overwriteDependentsFile :
  let run := startCrawl fuel web (Some existing) shown overwriteDependentsFile in
  disk_after run
  = Some (if overwriteDependentsFile
          then match persist_flags (events run) with
               | [] => existing
               | _ :: _ => batches (events run)
               end
          else existing ++ batches (events run)).
Proof.
  cbv zeta. unfold startCrawl. destruct overwriteDependentsFile;
    [|by apply crawl_loop_appended].
  destruct fuel as [|fuel]; [done|].
  rewrite crawl_loop_S.
  destruct (crawl_turn web _) as [[c' evs] o] eqn:Hturn.
  apply crawl_turn_inv in Hturn
    as [(-> & -> & e & ->)|(ex & b & sv & Hex & Hsv & Hc' & Hflag & Hturn)];
    [done|].
  cbn [_overwriteDependentsFile] in *. subst sv.
  simpl in Hturn.
  destruct Hturn as [(-> & _ & [->|[e ->]])|(url & -> & [[-> _]|[-> _]])];
    cbn [ended after events disk_after];
    try (rewrite Hc'; unfold batches; simpl; by rewrite ?app_nil_r).
  rewrite (crawl_loop_appended fuel web c' _ Hflag Hc').
  unfold batches, persist_flags. rewrite bind_app. simpl. by rewrite app_nil_r.
Qed.

(** X19.  After an invocation without the resume flag that reaches the
    listing, the file holds the batches this run persisted and nothing
    else, whatever it held before; and the run ends the same way as on a
    missing file. *)
Theorem fresh_start_store fuel argv web disk githubOwnerAndRepo dependentsFile first :
  getArgs argv = Ok (githubOwnerAndRepo, dependentsFile, false) →
  web ("https://github.com/" +:+ githubOwnerAndRepo +:+ "/network/dependents")
  = Some first →
  disk_after (start fuel argv web disk)
  = Some (batches (events (start fuel argv web disk)))
  ∧ outcome (start fuel argv web disk) = outcome (start fuel argv web None).
Proof.
  intros Hargs Hweb. unfold start. rewrite Hargs, Hweb.
  cbn [saveDependentsToFile negb after disk_after events outcome].
  split; [|done].
  pose proof (startCrawl_store fuel web [] first true) as H. cbv zeta in H.
  rewrite H. unfold batches at 2. simpl. fold (batches (events (startCrawl fuel web (Some []) first true))).
  destruct (persist_flags _) eqn:Hflags; [|done].
  assert (Hnone : ∀ evs, persist_flags evs = [] → batches evs = []).
  { clear. induction evs as [|[url|ow bf b sv] evs IH]; [done|exact IH|done]. }
  by rewrite Hnone.
Qed.

Lemma fresh_start_store_witness :
  let run := start 5 ["ownerA/repoB"; "dependents.json"] site (Some [carol; carol]) in
  disk_after run = Some (batches (events run))
  ∧ outcome run = outcome (start 5 ["ownerA/repoB"; "dependents.json"] site None).
Proof.
  apply (fresh_start_store 5 ["ownerA/repoB"; "dependents.json"] site
           (Some [carol; carol]) "ownerA/repoB" "dependents.json" page1);
    vm_compute; reflexivity.
Defined.

(** X20.  The page loop never leaves a page that it has not persisted: in
    the events of a run every navigation directly follows a persist. *)
Theorem navigation_follows_persist fuel web disk shown overwriteDependentsFile :
  persist_before_goto (events (startCrawl fuel web disk shown overwriteDependentsFile))
  = true.
Proof.
  unfold startCrawl. generalize {| dependentsFile := disk; page := shown;
    _overwriteDependentsFile := overwriteDependentsFile |}. clear.
  induction fuel as [|fuel IH]; intros c; [done|].
  rewrite crawl_loop_S.
  destruct (crawl_turn web c) as [[c' evs] o] eqn:Hturn.
  apply crawl_turn_inv in Hturn
    as [(-> & -> & e & ->)|(ex & b & sv & _ & _ & _ & _ & Hturn)]; [done|].
  simpl in Hturn.
  destruct Hturn as [(-> & _ & [->|[e ->]])|(url & -> & [[-> _]|[-> _]])];
    try done.
  cbn [after events app persist_before_goto]. apply IH.
Qed.

(** A run that has ended is the same with any larger bound on the turns. *)
Lemma startCrawl_bound fuel fuel' web disk shown overwriteDependentsFile :
  outcome (startCrawl fuel web disk shown overwriteDependentsFile) ≠ Running →
  fuel ≤ fuel' →
  startCrawl fuel' web disk shown overwriteDependentsFile
  = startCrawl fuel web disk shown overwriteDependentsFile.
Proof.
  unfold startCrawl. generalize {| dependentsFile := disk; page := shown;
    _overwriteDependentsFile := overwriteDependentsFile |}. clear.
  revert fuel'. induction fuel as [|fuel IH]; intros fuel' c Hout Hle; [done|].
  destruct fuel' as [|fuel']; [lia|]. rewrite !crawl_loop_S in *.
  destruct (crawl_turn web c) as [[c' evs] [o|]]; [done|].
  cbn [after outcome] in Hout. by rewrite (IH fuel' c') by (done || lia).
Qed.

(** X21.  A run of the page loop ends with [Done] only on a page that
    parsed, after at least one persist, and whose next-link lookup says
    that there is no next page. *)
Theorem done_on_the_last_page fuel web disk shown overwriteDependentsFile :
  let run := startCrawl fuel web disk shown overwriteDependentsFile in
  outcome run = Done →
  getNextDependentsPageUrl (tab_after run) = Ok None
  ∧ is_Some (parseDependents (tab_after run)).1
  ∧ persist_flags (events run) ≠ [].
Proof.
  cbv zeta. unfold startCrawl. generalize {| dependentsFile := disk; page := shown;
    _overwriteDependentsFile := overwriteDependentsFile |}. clear.
  induction fuel as [|fuel IH]; intros c; [done|].
  rewrite crawl_loop_S. unfold crawl_turn.
  destruct (parseDependents (page c)).1 as [parsed|] eqn:Hparsed; [|done].
  destruct (removeDuplicateDependents _ _) as [kept|e]; [|done].
  destruct (getPreviousDependentsPageUrl (page c)) as [prev|e]; [|done].
  destruct (saveDependentsToFile _ _ _) as [sv|e]; [|done].
  cbn [page].
  destruct (getNextDependentsPageUrl (page c)) as [[next|]|e] eqn:Hnext; [| |done].
  - destruct (web next) as [pageNext|]; [|done].
    cbn [after outcome tab_after events]. intros Hout.
    destruct (IH _ Hout) as (H1 & H2 & H3). split; [done|]. split; [done|].
    unfold persist_flags. simpl. done.
  - cbn. intros _. rewrite Hparsed. split; [done|]. split; [by eexists|done].
Qed.

Lemma done_on_the_last_page_witness :
  let run := startCrawl 5 site (Some []) page1 true in
  outcome run = Done
  ∧ getNextDependentsPageUrl (tab_after run) = Ok None
  ∧ is_Some (parseDependents (tab_after run)).1
  ∧ persist_flags (events run) ≠ [].
Proof.
  cbv zeta.
  assert (Hout : outcome (startCrawl 5 site (Some []) page1 true) = Done)
    by (vm_compute; reflexivity).
  split; [exact Hout|].
  exact (done_on_the_last_page 5 site (Some []) page1 true Hout).
Defined.

(** X8.  What [getArgs] throws.  The checks are made in order: the first
    argument, then the second, then the third; the error is that of the
    first check that fails. *)
Theorem getArgs_rejects argv e :
  getArgs argv = Throw e
  ↔ (e = BadOwnerAndRepo
     ∧ ¬ ∃ g, argv !! 0 = Some g ∧ owner_repo_shape g)
    ∨ (e = BadDependentsFile
       ∧ (∃ g, argv !! 0 = Some g ∧ owner_repo_shape g)
       ∧ ¬ ∃ f, argv !! 1 = Some f ∧ json_shape f)
    ∨ (e = BadResumeCrawl
       ∧ (∃ g, argv !! 0 = Some g ∧ owner_repo_shape g)
       ∧ (∃ f, argv !! 1 = Some f ∧ json_shape f)
       ∧ ∃ third, argv !! 2 = Some third ∧ third ≠ "true" ∧ third ≠ "false").
Proof.
  unfold getArgs.
  destruct (argv !! 0) as [g|].
  2:{ split; [intros [= <-]; left; split; [done|]; by intros (? & ? & _)|].
      intros [[-> _]|[(_ & (? & ? & _) & _)|(_ & (? & ? & _) & _)]]; done. }
  pose proof (owner_and_repo_re_shape g) as Hg.
  destruct (Regex.exec owner_and_repo_re g) as [resg|].
  2:{ assert (¬ owner_repo_shape g) as Hng by (intros [? ?]%Hg; done).
      split; [intros [= <-]; left; split; [done|]; by intros (? & [= <-] & ?)|].
      intros [[-> _]|[(_ & (? & [= <-] & ?) & _)|(_ & (? & [= <-] & ?) & _)]]; done. }
  assert (owner_repo_shape g) as Hgs by (apply Hg; by eexists).
  destruct (argv !! 1) as [f|].
  2:{ split; [intros [= <-]; right; left; split; [done|]; split; [by eauto|];
              by intros (? & ? & _)|].
      intros [[_ Hn]|[(-> & _)|(_ & _ & (? & ? & _) & _)]]; [|done|done].
      destruct Hn. eauto. }
  pose proof (json_file_re_shape f) as Hf.
  destruct (Regex.exec json_file_re f) as [resf|].
  2:{ assert (¬ json_shape f) as Hnf by (intros [? ?]%Hf; done).
      split; [intros [= <-]; right; left; split; [done|]; split; [by eauto|];
              by intros (? & [= <-] & ?)|].
      intros [[_ Hn]|[(-> & _)|(_ & _ & (? & [= <-] & ?) & _)]]; [|done|done].
      destruct Hn. eauto. }
  assert (json_shape f) as Hfs by (apply Hf; by eexists).
  case_bool_decide as Hthird.
  - destruct Hthird as (H1 & H2 & H3).
    destruct (argv !! 2) as [third|]; [|done]. split.
    + intros [= <-]. right; right. split; [done|]. split; [by eauto|].
      split; [by eauto|]. exists third. split; [done|]. split; congruence.
    + intros [[_ Hn]|[(_ & _ & Hn)|(-> & _)]]; [| |done]; destruct Hn; eauto.
  - split; [done|].
    intros [[_ Hn]|[(_ & _ & Hn)|(_ & _ & _ & third & H3 & Ht & Hf3)]];
      [destruct Hn; eauto|destruct Hn; eauto|].
    destruct Hthird. rewrite H3. repeat split; congruence.
Qed.

Lemma getArgs_rejects_witness :
  getArgs ["owner repo"; "dependents.json"] = Throw BadOwnerAndRepo
  ∧ ¬ owner_repo_shape "owner repo".
Proof.
  assert (Hargs : getArgs ["owner repo"; "dependents.json"] = Throw BadOwnerAndRepo)
    by (vm_compute; reflexivity).
  split; [exact Hargs|].
  apply getArgs_rejects in Hargs as [[_ Hno]|[[? _]|[? _]]]; [|done|done].
  intros Hshape. apply Hno. by exists "owner repo".
Defined.

(** X6.  For each of the three expressions of the source, [exec] finds a
    match exactly when some part of the input is in the language of the
    expression. *)
Theorem matcher_agrees_with_language input :
  (is_Some (Regex.exec reg input) ↔ contains_match reg input)
  ∧ (is_Some (Regex.exec owner_and_repo_re input)
     ↔ contains_match owner_and_repo_re input)
  ∧ (is_Some (Regex.exec json_file_re input) ↔ contains_match json_file_re input).
Proof. repeat split; by apply exec_is_Some. Qed.
